(** * dip-go: settlement of transactions between bank accounts

    A shallow embedding of [main.go].  Accounts and transactions live in a
    store and are reached through references, as the Go code reaches them
    through [*Account] and [*Transaction]; the unsigned integers of the code
    are [Z] with their wrap-around written out; the [float64] arithmetic of
    the credit and cash handlers is the IEEE 754 binary64 arithmetic of the
    standard library's [SpecFloat]. *)

From Stdlib Require Import ZArith QArith Qround Lia SpecFloat.
From stdpp Require Import gmap strings.

Local Open Scope Z_scope.

(** ** Machine integers *)

(** [uint32] arithmetic wraps around modulo [2^32]. *)
Definition wrap32 (z : Z) : Z := z mod 2 ^ 32.

Definition is_uint32 (z : Z) : Prop := 0 <= z < 2 ^ 32.
Definition is_uint8 (z : Z) : Prop := 0 <= z < 2 ^ 8.

(** ** float64 *)

Module Float64.

Definition prec : Z := 53.
Definition emax : Z := 1024.

(** [float64(n)] for an integer [n]: the nearest binary64 number. *)
Definition of_Z (n : Z) : spec_float := binary_normalize prec emax n 0 false.

Definition mul : spec_float -> spec_float -> spec_float := SFmul prec emax.

(** A decimal constant [n/d] of the program text, rounded to the nearest
    binary64 number ([n] and [d] are small, hence exact, and IEEE division
    rounds the exact quotient). *)
Definition of_decimal (n d : Z) : spec_float := SFdiv prec emax (of_Z n) (of_Z d).

(** The integer part of a finite number, fraction discarded (toward zero);
    nothing for infinities and NaN. *)
Definition trunc (f : spec_float) : option Z :=
  match f with
  | S754_zero _ => Some 0
  | S754_finite s m e => Some (cond_Zopp s (Z.shiftl (Z.pos m) e))
  | S754_infinity _ | S754_nan => None
  end.

(** The literals [1.10] and [0.90]. *)
Definition c1_10 : spec_float := of_decimal 110 100.
Definition c0_90 : spec_float := of_decimal 90 100.

End Float64.

(** ** Data model *)

(** All of the possible payment methods. *)
Definition PaymentMethod : Type := string.
Definition CREDIT : PaymentMethod := "C".
Definition DEBIT : PaymentMethod := "D".
Definition CASH : PaymentMethod := "S".

(** All of the possible states of a transaction. *)
Definition TransactionState : Type := string.
Definition OPEN : TransactionState := "O".
Definition EXPIRED : TransactionState := "E".
Definition CLOSED : TransactionState := "C".

(** The three implementations of the interface [TransactionHandler]. *)
Inductive TransactionHandler : Type :=
  | CreditTransactionHandler
  | CashTransactionHandler
  | DebitTransactionHandler.

(** A reference ([*Account], [*Transaction]) is an address of the store; a nil
    or dangling reference is an address the store does not hold. *)
Definition loc : Type := nat.

(** Models the transaction one account can make to another.  The field [id]
    of the Go struct is [txid] here; [transactionHandler] is [None] for the nil
    interface value. *)
Record Transaction : Type := mkTransaction {
  txid : Z;
  amount : Z;
  sender : loc;
  recipient : loc;
  state : TransactionState;
  paymentMethod : PaymentMethod;
  transactionHandler : option TransactionHandler
}.

(** Models an account in a bank. *)
Record Account : Type := mkAccount {
  id : Z;
  name : string;
  balance : Z;
  transactions : list Transaction
}.

Record Store : Type := mkStore {
  accs : gmap loc Account;
  txns : gmap loc Transaction
}.

(** A Go [error]: [None] is nil, [Some msg] is [errors.New(msg)]. *)
Definition error : Type := option string.

Definition SelfTransactionError : string :=
  "One account can't make a transaction to itself".
Definition AlreadyClosedError : string :=
  "Can't pay an already closed transaction".
Definition ExpiredTransactionError : string :=
  "Transaction expired".
Definition InsufficientBalanceError : string :=
  "Sender doesn't have enough balance to make transaction".
Definition HandlerNotFoundError : string :=
  "Could find a valid handler".

(** ** Computations on the store *)

(** A call either returns a value and the store it leaves, or stops in a
    run-time panic (a nil dereference), leaving the store as it was then. *)
Inductive result (A : Type) : Type :=
  | Ret (a : A) (s : Store)
  | Fault (s : Store).
Arguments Ret {A} a s.
Arguments Fault {A} s.

Definition M (A : Type) : Type := Store -> result A.

Definition ret {A} (a : A) : M A := fun s => Ret a s.

Definition bind {A B} (c : M A) (k : A -> M B) : M B :=
  fun s => match c s with
           | Ret a s' => k a s'
           | Fault s' => Fault s'
           end.

Notation "x <~ c ;; k" := (bind c (fun x => k))
  (at level 100, c at next level, right associativity).
Notation "c ;;; k" := (bind c (fun _ => k))
  (at level 100, right associativity).

Definition final_store {A} (r : result A) : Store :=
  match r with Ret _ s => s | Fault s => s end.

(** [*p] for [p : *Transaction] and [p : *Account]. *)
Definition load_tx (p : loc) : M Transaction :=
  fun s => match txns s !! p with Some t => Ret t s | None => Fault s end.

Definition load_acc (p : loc) : M Account :=
  fun s => match accs s !! p with Some a => Ret a s | None => Fault s end.

Definition with_balance (a : Account) (b : Z) : Account :=
  mkAccount (id a) (name a) b (transactions a).

Definition with_state (t : Transaction) (st : TransactionState) : Transaction :=
  mkTransaction (txid t) (amount t) (sender t) (recipient t) st
                (paymentMethod t) (transactionHandler t).

Definition with_handler (t : Transaction) (h : TransactionHandler) : Transaction :=
  mkTransaction (txid t) (amount t) (sender t) (recipient t) (state t)
                (paymentMethod t) (Some h).

(** [p.balance = f(p.balance)] *)
Definition update_balance (p : loc) (f : Z -> Z) : M unit :=
  a <~ load_acc p ;;
  fun s => Ret tt (mkStore (<[p := with_balance a (f (balance a))]> (accs s)) (txns s)).

(** [p.state = st] *)
Definition set_state (p : loc) (st : TransactionState) : M unit :=
  t <~ load_tx p ;;
  fun s => Ret tt (mkStore (accs s) (<[p := with_state t st]> (txns s))).

(** [p.transactionHandler = &h] *)
Definition set_handler (p : loc) (h : TransactionHandler) : M unit :=
  t <~ load_tx p ;;
  fun s => Ret tt (mkStore (accs s) (<[p := with_handler t h]> (txns s))).

(** What a test reads back. *)
Definition balance_at (p : loc) (s : Store) : option Z := balance <$> accs s !! p.
Definition state_at (p : loc) (s : Store) : option TransactionState := state <$> txns s !! p.
Definition handler_at (p : loc) (s : Store) : option (option TransactionHandler) :=
  transactionHandler <$> txns s !! p.

(** ** The program *)

Section Program.

(** Go leaves the result of converting a floating-point value to an integer
    type that cannot represent it to the implementation.  [out_of_range] is
    that choice; whatever it is, it is stored in a [uint32]. *)
Variable out_of_range : spec_float -> Z.

(** [uint32(f)] *)
Definition uint32_of_float64 (f : spec_float) : Z :=
  match Float64.trunc f with
  | Some z => if (0 <=? z) && (z <? 2 ^ 32) then z else wrap32 (out_of_range f)
  | None => wrap32 (out_of_range f)
  end.

(** The amount each handler checks against the sender's balance and then
    moves: [uint32(float64(t.amount) * 1.10)], [uint32(float64(t.amount) *
    0.90)] and [t.amount]. *)
Definition effective (th : TransactionHandler) (amt : Z) : Z :=
  match th with
  | CreditTransactionHandler =>
      uint32_of_float64 (Float64.mul (Float64.of_Z amt) Float64.c1_10)
  | CashTransactionHandler =>
      uint32_of_float64 (Float64.mul (Float64.of_Z amt) Float64.c0_90)
  | DebitTransactionHandler => amt
  end.

(** The method [pay] of the three handlers: their bodies differ in the
    amount only. *)
Definition pay (th : TransactionHandler) (tp : loc) : M error :=
  t <~ load_tx tp ;;
  sa <~ load_acc (sender t) ;;
  ra <~ load_acc (recipient t) ;;
  if id sa =? id ra then ret (Some SelfTransactionError)
  else if String.eqb (state t) CLOSED then ret (Some AlreadyClosedError)
  else if String.eqb (state t) EXPIRED then ret (Some ExpiredTransactionError)
  else if balance sa <? effective th (amount t) then ret (Some InsufficientBalanceError)
  else
    update_balance (sender t) (fun b => wrap32 (b - effective th (amount t))) ;;;
    update_balance (recipient t) (fun b => wrap32 (b + effective th (amount t))) ;;;
    set_state tp CLOSED ;;;
    ret None.

(** Pays transaction. *)
Definition makePayment (tp : loc) : M error :=
  t <~ load_tx tp ;;
  match transactionHandler t with
  | None => fun s => Fault s
  | Some th =>
      err <~ pay th tp ;;
      match err with
      | Some e => ret (Some e)
      | None => ret None
      end
  end.

End Program.

(** The store a successful [pay] leaves. *)
Definition settled (out_of_range : spec_float -> Z) (th : TransactionHandler) (tp : loc)
    (t : Transaction) (a b : Account) (s : Store) : Store :=
  let moved := effective out_of_range th (amount t) in
  mkStore (<[recipient t := with_balance b (wrap32 (balance b + moved))]>
             (<[sender t := with_balance a (wrap32 (balance a - moved))]> (accs s)))
          (<[tp := with_state t CLOSED]> (txns s)).

(** Chooses what handler should be used with each transaction. *)
Definition selectTransactionHandler (tp : loc) : M error :=
  t <~ load_tx tp ;;
  if String.eqb (paymentMethod t) CREDIT then
    set_handler tp CreditTransactionHandler ;;; ret None
  else if String.eqb (paymentMethod t) CASH then
    set_handler tp CashTransactionHandler ;;; ret None
  else if String.eqb (paymentMethod t) DEBIT then
    set_handler tp DebitTransactionHandler ;;; ret None
  else ret (Some HandlerNotFoundError).

(** The store [selectTransactionHandler] leaves when it binds [h]. *)
Definition rebound (tp : loc) (t : Transaction) (h : TransactionHandler) (s : Store) : Store :=
  mkStore (accs s) (<[tp := with_handler t h]> (txns s)).

(** The strategy that corresponds to a payment method, if any. *)
Definition handler_of (m : PaymentMethod) : option TransactionHandler :=
  if String.eqb m CREDIT then Some CreditTransactionHandler
  else if String.eqb m CASH then Some CashTransactionHandler
  else if String.eqb m DEBIT then Some DebitTransactionHandler
  else None.

(** ** The demonstration of [main] *)

(** A platform that keeps the low 32 bits of the integer part, as a backend
    that converts through a 64-bit integer does. *)
Definition low32 (f : spec_float) : Z :=
  match Float64.trunc f with Some z => z | None => 0 end.

Definition gustavo : Account := mkAccount 1 "My first account" 150 [].
Definition pedro : Account := mkAccount 2 "Online store" 5 [].

(** [gustavo] is at address 1, [pedro] at 2, the transaction at 3. *)
Definition transaction (m : PaymentMethod) (amt : Z) : Transaction :=
  mkTransaction 1 amt 1%nat 2%nat OPEN m None.

Definition demo_store (m : PaymentMethod) (amt : Z) (a b : Account) : Store :=
  mkStore (<[1%nat := a]> (<[2%nat := b]> ∅)) (<[3%nat := transaction m amt]> ∅).

(** [main] logs an error of the selection and goes on to pay. *)
Definition main_flow (out_of_range : spec_float -> Z) (tp : loc) : M error :=
  selectTransactionHandler tp ;;; makePayment out_of_range tp.

(** What [main] could print at the end: the error of the payment, the two
    balances and the state of the transaction. *)
Definition report (r : result error)
  : option error * option Z * option Z * option TransactionState :=
  (match r with Ret e _ => Some e | Fault _ => None end,
   balance_at 1%nat (final_store r), balance_at 2%nat (final_store r),
   state_at 3%nat (final_store r)).

(** ** Sequences of calls *)

(** A caller's step: one of the two methods on one transaction.  As in [main],
    a returned error is logged and the caller goes on; a panic stops the run. *)
Inductive op : Type :=
  | SelectHandler (tp : loc)
  | MakePayment (tp : loc).

Definition step (out_of_range : spec_float -> Z) (o : op) : M error :=
  match o with
  | SelectHandler tp => selectTransactionHandler tp
  | MakePayment tp => makePayment out_of_range tp
  end.

Fixpoint run (out_of_range : spec_float -> Z) (ops : list op) : M unit :=
  match ops with
  | [] => ret tt
  | o :: ops' => step out_of_range o ;;; run out_of_range ops'
  end.

(** ** What the types of the fields guarantee *)

(** Every [uint8] and [uint32] field of the store holds a value of its type. *)
Definition wf_store (s : Store) : Prop :=
  map_Forall (fun _ a => is_uint8 (id a) /\ is_uint32 (balance a)) (accs s) /\
  map_Forall (fun _ t => is_uint32 (amount t)) (txns s).

(** Identities are unique within the process: no two accounts of the store
    share an id. *)
Definition unique_ids (s : Store) : Prop :=
  forall p q a b, accs s !! p = Some a -> accs s !! q = Some b -> id a = id b -> p = q.

(** ** The amounts of the specification *)

(** [floor (amount * n / d)] in exact rational arithmetic. *)
Definition floor_of (amt : Z) (n d : positive) : Z :=
  Qfloor (inject_Z amt * (Z.pos n # d))%Q.

(** The effective settlement amount as the specification words it:
    [floor (amount * 1.10)] for credit, [floor (amount * 0.90)] for cash, the
    amount for debit. *)
Definition spec_effective (th : TransactionHandler) (amt : Z) : Z :=
  match th with
  | CreditTransactionHandler => floor_of amt 110 100
  | CashTransactionHandler => floor_of amt 90 100
  | DebitTransactionHandler => amt
  end.

(** The amounts for which [spec_effective] is the [uint32] the strategy
    computes: every amount for cash and debit, those whose surcharged value
    fits for credit. *)
Definition fee_fits (th : TransactionHandler) (amt : Z) : Prop :=
  is_uint32 amt /\ (th = CreditTransactionHandler -> amt <= 3904515723).

(** ** Sample stores *)

(** A debit of 5 to a recipient that holds the largest [uint32]. *)
Definition full_store : Store :=
  demo_store DEBIT 5 (mkAccount 1 "payer" 10 []) (mkAccount 2 "full" 4294967295 []).

Definition selected (s : Store) : Store := final_store (selectTransactionHandler 3%nat s).

(** A closed transaction from an account to itself, its handler bound. *)
Definition closed_self_store : Store :=
  mkStore (<[1%nat := gustavo]> ∅)
          (<[3%nat := mkTransaction 1 55 1%nat 1%nat CLOSED DEBIT (Some DebitTransactionHandler)]> ∅).

(** A credit of 3904515724, the least amount whose surcharged value does not
    fit a [uint32], from an account that holds the largest [uint32]. *)
Definition large_credit_store : Store :=
  demo_store CREDIT 3904515724 (mkAccount 1 "rich" 4294967295 []) pedro.

(** Two accounts that were given one id, and a closed transaction between
    them. *)
Definition twin_store : Store :=
  mkStore (<[1%nat := mkAccount 7 "one" 150 []]> (<[2%nat := mkAccount 7 "other" 5 []]> ∅))
          (<[3%nat := mkTransaction 1 55 1%nat 2%nat CLOSED DEBIT (Some DebitTransactionHandler)]> ∅).

(** The third scenario: a debit of 55 from an account that holds 10. *)
Definition poor_store : Store :=
  demo_store DEBIT 55 (mkAccount 1 "My first account" 10 []) pedro.

(** The errors a strategy returns. *)
Definition settlement_error (e : string) : Prop :=
  e = SelfTransactionError \/ e = AlreadyClosedError \/
  e = ExpiredTransactionError \/ e = InsufficientBalanceError.

(** ** Beyond one payment: the whole store, the log, the earlier file *)

(** The whole of the money: the sum of the balances of the store. *)
Definition sum_balances (m : gmap loc Account) : Z :=
  map_fold (fun _ a acc => balance a + acc) 0 m.

Definition total_balance (s : Store) : Z := sum_balances (accs s).

(** What no call changes in an account: its id and its name.  (Nothing is
    said of its list of transactions: an element of the list can be reached
    through a reference and paid, and the store keeps the list apart from the
    transactions it holds.) *)
Definition same_identity (a a' : Account) : Prop :=
  id a' = id a /\ name a' = name a.

(** An account a call has left alone: id, name and balance. *)
Definition same_funds (a a' : Account) : Prop :=
  same_identity a a' /\ balance a' = balance a.

(** What no call changes in a transaction: everything but its state and the
    handler bound to it. *)
Definition same_order (t t' : Transaction) : Prop :=
  txid t' = txid t /\ amount t' = amount t /\ sender t' = sender t /\
  recipient t' = recipient t /\ paymentMethod t' = paymentMethod t.

(** The only move of a state: from a state that is neither CLOSED nor EXPIRED
    to CLOSED. *)
Definition state_step (st st' : TransactionState) : Prop :=
  st' = st \/ (st <> CLOSED /\ st <> EXPIRED /\ st' = CLOSED).

(** The line [main] logs for an error, none for nil. *)
Definition log_line (e : error) : list string :=
  match e with Some msg => [msg] | None => [] end.

(** The two calls of [main] on a transaction: the lines logged, in order, and
    how the sequence ends.  A line logged before a panic stays logged. *)
Definition main_steps (out_of_range : spec_float -> Z) (tp : loc) (s : Store)
  : list string * result unit :=
  match selectTransactionHandler tp s with
  | Fault s1 => ([], Fault s1)
  | Ret e1 s1 =>
      match makePayment out_of_range tp s1 with
      | Fault s2 => (log_line e1, Fault s2)
      | Ret e2 s2 => (log_line e1 ++ log_line e2, Ret tt s2)
      end
  end.

(** [main]: the two accounts, a cash transaction of 55 between them, and the
    two calls. *)
Definition main (out_of_range : spec_float -> Z) : list string * result unit :=
  main_steps out_of_range 3%nat (demo_store CASH 55 gustavo pedro).

(** What a sequence of calls can make of a store: the same accounts and
    transactions, each account with its identity, each transaction with its
    order and a state that has stayed or moved to CLOSED. *)
Definition evolves (s s' : Store) : Prop :=
  (forall q, option_Forall2 same_identity (accs s !! q) (accs s' !! q)) /\
  (forall q, option_Forall2
               (fun t t' => same_order t t' /\ state_step (state t) (state t'))
               (txns s !! q) (txns s' !! q)).

Definition with_amount (t : Transaction) (v : Z) : Transaction :=
  mkTransaction (txid t) v (sender t) (recipient t) (state t)
                (paymentMethod t) (transactionHandler t).

Module Part000.

(** The method [pay] of the three handlers of the earlier file, which has no
    fee: the three bodies are the same text and move [t.value], the field that
    [main.go] calls [amount]. *)
Definition pay (th : TransactionHandler) (tp : loc) : M error :=
  t <~ load_tx tp ;;
  sa <~ load_acc (sender t) ;;
  ra <~ load_acc (recipient t) ;;
  if id sa =? id ra then ret (Some SelfTransactionError)
  else if String.eqb (state t) CLOSED then ret (Some AlreadyClosedError)
  else if String.eqb (state t) EXPIRED then ret (Some ExpiredTransactionError)
  else if balance sa <? amount t then ret (Some InsufficientBalanceError)
  else
    update_balance (sender t) (fun b => wrap32 (b - amount t)) ;;;
    update_balance (recipient t) (fun b => wrap32 (b + amount t)) ;;;
    set_state tp CLOSED ;;;
    ret None.

End Part000.

(** Two results that a caller reading the error, the balances and the states
    cannot tell apart. *)
Definition same_outcome (r r' : result error) : Prop :=
  match r, r' with
  | Ret e s, Ret e' s' =>
      e = e' /\ accs s = accs s' /\ forall q, state_at q s = state_at q s'
  | Fault _, Fault _ => True
  | _, _ => False
  end.

Definition debit_order (n : Z) (from to : loc) (amt : Z) : Transaction :=
  mkTransaction n amt from to OPEN DEBIT (Some DebitTransactionHandler).

(** Three debits of 100 between [gustavo] (150) and [pedro] (5): transaction 3
    from the first to the second, 4 back, 5 like 3. *)
Definition ledger_store : Store :=
  mkStore (<[1%nat := gustavo]> (<[2%nat := pedro]> ∅))
          (<[3%nat := debit_order 1 1%nat 2%nat 100]>
             (<[4%nat := debit_order 2 2%nat 1%nat 100]>
                (<[5%nat := debit_order 3 1%nat 2%nat 100]> ∅))).

(** A transaction whose state was left out of the struct literal. *)
Definition stateless_store : Store :=
  mkStore (<[1%nat := gustavo]> (<[2%nat := pedro]> ∅))
          (<[3%nat := mkTransaction 1 55 1%nat 2%nat EmptyString DEBIT (Some DebitTransactionHandler)]> ∅).

(** Every bound handler is the one of the payment method. *)
Definition handlers_match (s : Store) : Prop :=
  forall q t h, txns s !! q = Some t -> transactionHandler t = Some h ->
                handler_of (paymentMethod t) = Some h.

(** * Proofs *)

(** ** binary64: rounding a product and taking its integer part *)

(** [digits2_pos m] is the number of bits of [m]. *)
Lemma digits2_pos_bounds (m : positive) :
  2 ^ (Z.pos (digits2_pos m) - 1) <= Z.pos m < 2 ^ Z.pos (digits2_pos m).
Proof.
  induction m as [m IH | m IH | ]; cbn [digits2_pos];
    [change (Z.pos m~1) with (2 * Z.pos m + 1)
    | change (Z.pos m~0) with (2 * Z.pos m)
    | cbn; lia];
    rewrite Pos2Z.inj_succ;
    replace (Z.succ (Z.pos (digits2_pos m)) - 1) with (Z.succ (Z.pos (digits2_pos m) - 1)) by lia;
    rewrite !Z.pow_succ_r by lia; lia.
Qed.

Lemma digits2_pos_unique (m : positive) (d : Z) :
  2 ^ (d - 1) <= Z.pos m < 2 ^ d -> Z.pos (digits2_pos m) = d.
Proof.
  intros [Hlo Hhi]. pose proof (digits2_pos_bounds m) as [Blo Bhi].
  assert (0 < d).
  { destruct (Z.ltb_spec 0 d) as [|Hd]; [trivial|].
    destruct (Z.eq_dec d 0) as [->|]; [cbn in Hhi; lia|].
    rewrite Z.pow_neg_r in Hhi by lia. lia. }
  assert (d - 1 < Z.pos (digits2_pos m)).
  { apply (Z.pow_lt_mono_r_iff 2); lia. }
  assert (Z.pos (digits2_pos m) - 1 < d).
  { apply (Z.pow_lt_mono_r_iff 2); lia. }
  lia.
Qed.

Lemma shr_1_m (mrs : shr_record) :
  0 <= shr_m mrs -> shr_m (shr_1 mrs) = shr_m mrs / 2.
Proof.
  destruct mrs as [[|[p|p|]|p] r s]; cbn [shr_m shr_1]; intros H; try lia;
    rewrite <- Z.div2_div; reflexivity.
Qed.

Lemma iter_pos_shr_m (p : positive) (mrs : shr_record) :
  0 <= shr_m mrs ->
  shr_m (SpecFloat.iter_pos shr_1 p mrs) = shr_m mrs / 2 ^ Z.pos p.
Proof.
  revert mrs. induction p as [p IH | p IH | ]; intros mrs H; cbn [SpecFloat.iter_pos].
  - assert (H1 : 0 <= shr_m (shr_1 mrs)) by (rewrite shr_1_m by trivial; apply Z.div_pos; lia).
    assert (H2 : 0 <= shr_m (SpecFloat.iter_pos shr_1 p (shr_1 mrs))).
    { rewrite IH by trivial. apply Z.div_pos; lia. }
    rewrite IH, IH, shr_1_m by trivial.
    assert (0 < 2 ^ Z.pos p) by (apply Z.pow_pos_nonneg; lia).
    rewrite !Z.div_div by lia. f_equal.
    change (Z.pos p~1) with (2 * Z.pos p + 1). rewrite Z.pow_add_r, Z.pow_mul_r by lia.
    change (2 ^ 2) with 4. change (2 ^ 1) with 2.
    replace (4 ^ Z.pos p) with (2 ^ Z.pos p * 2 ^ Z.pos p); [lia|].
    rewrite <- Z.pow_mul_l. reflexivity.
  - assert (H2 : 0 <= shr_m (SpecFloat.iter_pos shr_1 p mrs)).
    { rewrite IH by trivial. apply Z.div_pos; lia. }
    rewrite IH, IH by trivial.
    assert (0 < 2 ^ Z.pos p) by (apply Z.pow_pos_nonneg; lia).
    rewrite !Z.div_div by lia. f_equal.
    change (Z.pos p~0) with (2 * Z.pos p). rewrite Z.pow_mul_r by lia.
    change (2 ^ 2) with 4.
    rewrite <- Z.pow_mul_l. reflexivity.
  - rewrite shr_1_m by trivial. reflexivity.
Qed.

Lemma shr_fexp_exact (m e : Z) :
  0 <= m ->
  let n := Z.max 0 (fexp Float64.prec Float64.emax (Zdigits2 m + e) - e) in
  shr_m (fst (shr_fexp Float64.prec Float64.emax m e loc_Exact)) = m / 2 ^ n /\
  snd (shr_fexp Float64.prec Float64.emax m e loc_Exact) = e + n.
Proof.
  intros Hm n. subst n. unfold shr_fexp, shr.
  destruct (fexp Float64.prec Float64.emax (Zdigits2 m + e) - e) as [|p|p] eqn:E; cbn [fst snd shr_record_of_loc shr_m].
  - rewrite Z.div_1_r. split; lia.
  - rewrite iter_pos_shr_m by (cbn; trivial). cbn [shr_m].
    rewrite Z.max_r by lia. split; trivial.
  - rewrite Z.max_l by lia. rewrite Z.div_1_r. split; lia.
Qed.

Lemma round_nearest_even_bounds (m : Z) (l : location) :
  m <= round_nearest_even m l <= m + 1.
Proof. destruct l as [|[]]; cbn; try destruct (Z.even m); lia. Qed.

Lemma Zdigits2_unique (m d : Z) :
  0 < m -> 2 ^ (d - 1) <= m < 2 ^ d -> Zdigits2 m = d.
Proof.
  destruct m as [|p|p]; try lia. intros _ H. cbn [Zdigits2].
  apply digits2_pos_unique, H.
Qed.

Lemma fexp_normal (x : Z) :
  -1074 <= x - 53 -> fexp Float64.prec Float64.emax x = x - 53.
Proof. unfold fexp, emin, Float64.prec, Float64.emax. lia. Qed.

Lemma binary_round_aux_trunc (P e q d : Z) :
  2 ^ (d - 1) <= P < 2 ^ d ->
  53 <= d ->
  -1074 <= e + d - 53 <= -1 ->
  q * 2 ^ (- e) <= P ->
  P + 2 ^ (d - 53) < (q + 1) * 2 ^ (- e) ->
  Float64.trunc (binary_round_aux Float64.prec Float64.emax false P e loc_Exact) = Some q.
Proof.
  intros HP Hd He Hlo Hhi.
  assert (HP0 : 0 < P).
  { assert (0 < 2 ^ (d - 1)) by (apply Z.pow_pos_nonneg; lia). lia. }
  set (N := 2 ^ (d - 53)) in *.
  set (T := 2 ^ (- (e + (d - 53)))).
  assert (HN : 0 < N) by (apply Z.pow_pos_nonneg; lia).
  assert (HT : 0 < T) by (apply Z.pow_pos_nonneg; lia).
  assert (HTN : 2 ^ (- e) = T * N).
  { unfold T, N. rewrite <- Z.pow_add_r by lia. f_equal. lia. }
  assert (H52 : 2 ^ 52 * N = 2 ^ (d - 1)).
  { unfold N. rewrite <- Z.pow_add_r by lia. f_equal. lia. }
  assert (H53 : 2 ^ 53 * N = 2 ^ d).
  { unfold N. rewrite <- Z.pow_add_r by lia. f_equal. lia. }
  (* first shift: the product is cut to 53 bits *)
  unfold binary_round_aux.
  pose proof (shr_fexp_exact P e (Z.lt_le_incl _ _ HP0)) as [H1m H1e].
  rewrite (Zdigits2_unique P d HP0 HP), fexp_normal in H1m, H1e by lia.
  replace (Z.max 0 (d + e - 53 - e)) with (d - 53) in H1m, H1e by lia.
  fold N in H1m.
  destruct (shr_fexp Float64.prec Float64.emax P e loc_Exact) as [mrs1 e1].
  cbn [fst snd] in H1m, H1e. subst e1.
  pose proof (round_nearest_even_bounds (shr_m mrs1) (loc_of_shr_record mrs1)) as Hr.
  set (m' := round_nearest_even (shr_m mrs1) (loc_of_shr_record mrs1)) in *.
  rewrite H1m in Hr. clear H1m.
  assert (Hm1 : 2 ^ 52 <= P / N < 2 ^ 53).
  { split.
    - apply Z.div_le_lower_bound; lia.
    - apply Z.div_lt_upper_bound; lia. }
  (* second shift: at most one more bit, when rounding carried *)
  assert (Hm'0 : 0 < m') by (change (2 ^ 52) with 4503599627370496 in Hm1; lia).
  pose proof (shr_fexp_exact m' (e + (d - 53)) (Z.lt_le_incl _ _ Hm'0)) as [H2m H2e].
  assert (Hd' : 53 <= Zdigits2 m' <= 54).
  { destruct m' as [|p'|p'] eqn:Em'; try lia. cbn [Zdigits2].
    pose proof (digits2_pos_bounds p') as [Blo Bhi]. split.
    - assert (52 < Z.pos (digits2_pos p')); [|lia].
      apply (Z.pow_lt_mono_r_iff 2); lia.
    - assert (Z.pos (digits2_pos p') - 1 < 54); [|lia].
      apply (Z.pow_lt_mono_r_iff 2); [lia|lia|].
      change (2 ^ 54) with (2 * 2 ^ 53). lia. }
  rewrite fexp_normal in H2m, H2e by lia.
  set (n2 := Z.max 0 (Zdigits2 m' + (e + (d - 53)) - 53 - (e + (d - 53)))) in *.
  assert (Hn2 : 0 <= n2 <= 1) by lia.
  destruct (shr_fexp Float64.prec Float64.emax m' (e + (d - 53)) loc_Exact) as [mrs2 e2].
  cbn [fst snd] in H2m, H2e. subst e2.
  assert (Hm'' : 0 < shr_m mrs2).
  { rewrite H2m. apply Z.div_str_pos. split; [apply Z.pow_pos_nonneg; lia|].
    apply Z.le_trans with (2 ^ 1); [apply Z.pow_le_mono_r; lia|].
    change (2 ^ 52) with 4503599627370496 in Hm1. change (2 ^ 1) with 2. lia. }
  destruct (shr_m mrs2) as [|m2|m2] eqn:Em2; try lia.
  replace (e + (d - 53) + n2 <=? Float64.emax - Float64.prec) with true
    by (symmetry; apply Z.leb_le; unfold Float64.emax, Float64.prec; lia).
  cbn [Float64.trunc cond_Zopp]. f_equal.
  rewrite H2m.
  replace (e + (d - 53) + n2) with (- (- (e + (d - 53)) - n2)) by lia.
  rewrite Z.shiftl_div_pow2 by lia.
  rewrite Z.opp_involutive.
  rewrite Z.div_div by (try apply Z.pow_pos_nonneg; try apply Z.pow_nonzero; lia).
  rewrite <- Z.pow_add_r by lia.
  replace (n2 + (- (e + (d - 53)) - n2)) with (- (e + (d - 53))) by lia.
  fold T.
  (* the integer part *)
  assert (Hq1 : q * T <= P / N).
  { apply Z.div_le_lower_bound; [lia|]. rewrite HTN in Hlo. lia. }
  assert (Hq2 : P / N < (q + 1) * T - 1).
  { apply Z.div_lt_upper_bound; [lia|]. rewrite HTN in Hhi. lia. }
  symmetry. apply Z.div_unique with (r := m' - q * T); lia.
Qed.

Lemma binary_round_aux_canonical (m : positive) (e : Z) :
  2 ^ 52 <= Z.pos m < 2 ^ 53 ->
  -1074 <= e <= 971 ->
  binary_round_aux Float64.prec Float64.emax false (Z.pos m) e loc_Exact
  = S754_finite false m e.
Proof.
  intros Hm He.
  assert (Hs : shr_fexp Float64.prec Float64.emax (Z.pos m) e loc_Exact
               = (Build_shr_record (Z.pos m) false false, e)).
  { unfold shr_fexp. rewrite (Zdigits2_unique (Z.pos m) 53), fexp_normal by (trivial; lia).
    replace (53 + e - 53 - e) with 0 by lia. reflexivity. }
  unfold binary_round_aux. rewrite Hs. cbn [shr_m loc_of_shr_record round_nearest_even].
  rewrite Hs. cbn [shr_m].
  replace (e <=? Float64.emax - Float64.prec) with true; [reflexivity|].
  symmetry. apply Z.leb_le. unfold Float64.emax, Float64.prec. lia.
Qed.

(** [float64(a)] is exact for a positive integer below [2^53]: the integer,
    shifted left to fill the 53 bits of the mantissa. *)
Lemma of_Z_exact (a : Z) :
  0 < a < 2 ^ 53 ->
  exists (m : positive) (k : Z),
    Float64.of_Z a = S754_finite false m (- k) /\
    Z.pos m = a * 2 ^ k /\ 0 <= k <= 52 /\ 2 ^ 52 <= Z.pos m < 2 ^ 53.
Proof.
  intros Ha. destruct a as [|pa|pa]; try lia.
  pose proof (digits2_pos_bounds pa) as Hd.
  set (d := Z.pos (digits2_pos pa)) in *.
  assert (Hd53 : 1 <= d <= 53).
  { split; [unfold d; lia|].
    assert (d - 1 < 53); [|lia]. apply (Z.pow_lt_mono_r_iff 2); lia. }
  unfold Float64.of_Z, binary_normalize, binary_round. fold d.
  rewrite fexp_normal by lia. unfold shl_align.
  destruct (d + 0 - 53 - 0) as [|n|n] eqn:En; try lia.
  - (* already 53 bits *)
    assert (d = 53) by lia.
    exists pa, 0. change (- 0) with 0. change (2 ^ 0) with 1.
    assert (Hpa : 2 ^ 52 <= Z.pos pa < 2 ^ 53) by (rewrite H in Hd; exact Hd).
    rewrite binary_round_aux_canonical by (trivial; lia).
    repeat split; try lia.
  - (* shifted left by [53 - d] *)
    fold (shift_pos n pa).
    assert (Hn : Z.pos n = 53 - d) by lia.
    assert (Hm : Z.pos (shift_pos n pa) = Z.pos pa * 2 ^ (53 - d)).
    { rewrite shift_pos_correct. change (Z.pow_pos 2 n) with (2 ^ Z.pos n). rewrite Hn. lia. }
    assert (Hb : 2 ^ 52 <= Z.pos (shift_pos n pa) < 2 ^ 53).
    { rewrite Hm.
      replace (2 ^ 52) with (2 ^ (d - 1) * 2 ^ (53 - d))
        by (rewrite <- Z.pow_add_r by lia; f_equal; lia).
      replace (2 ^ 53) with (2 ^ d * 2 ^ (53 - d))
        by (rewrite <- Z.pow_add_r by lia; f_equal; lia).
      assert (0 < 2 ^ (53 - d)) by (apply Z.pow_pos_nonneg; lia).
      split; [apply Z.mul_le_mono_nonneg_r | apply Z.mul_lt_mono_pos_r]; lia. }
    exists (shift_pos n pa), (53 - d).
    replace (- (53 - d)) with (d + 0 - 53) by lia.
    rewrite binary_round_aux_canonical by (trivial; lia).
    repeat split; try lia.
Qed.

(** The integer part of [float64(a) * c], for a constant [c = M * 2^-s] that
    exceeds [num/10] by less than [2^-s / 2]: the rounding of the product
    never reaches the next integer, and is never below an exact one. *)
Lemma mul_constant_trunc (a num delta s : Z) (M : positive) :
  0 <= a < 2 ^ 32 ->
  2 ^ 52 <= Z.pos M < 2 ^ 53 ->
  52 <= s <= 53 ->
  0 <= num ->
  0 <= delta <= 4 ->
  10 * Z.pos M = num * 2 ^ s + delta ->
  Float64.trunc (Float64.mul (Float64.of_Z a) (S754_finite false M (- s)))
  = Some (a * num / 10).
Proof.
  intros Ha HM Hs Hnum Hdelta HMeq.
  destruct (Z.eq_dec a 0) as [->|Ha0]; [reflexivity|].
  destruct (of_Z_exact a) as (m & k & -> & Hm & Hk & Hmb).
  { change (2 ^ 53) with 9007199254740992. change (2 ^ 32) with 4294967296 in Ha. lia. }
  unfold Float64.mul, SFmul. cbn [xorb]. rewrite Pos2Z.inj_mul.
  set (K := 2 ^ k) in *. set (S := 2 ^ s) in *.
  set (q := a * num / 10).
  pose proof (Z.div_mod (a * num) 10 ltac:(lia)) as Hqr.
  pose proof (Z.mod_pos_bound (a * num) 10 ltac:(lia)) as Hr.
  fold q in Hqr. set (r := (a * num) mod 10) in *.
  change (2 ^ 32) with 4294967296 in Ha.
  change (2 ^ 52) with 4503599627370496 in HM, Hmb.
  change (2 ^ 53) with 9007199254740992 in HM, Hmb.
  assert (HK : 1048576 < K).
  { destruct (Z.lt_ge_cases 1048576 K) as [|HK]; [trivial|exfalso].
    assert (0 < K) by (apply Z.pow_pos_nonneg; lia). nia. }
  assert (HS : 4503599627370496 <= S).
  { change 4503599627370496 with (2 ^ 52). apply Z.pow_le_mono_r; lia. }
  assert (Hk21 : 21 <= k).
  { assert (20 < k); [|lia]. apply (Z.pow_lt_mono_r_iff 2); [lia|lia|].
    change (2 ^ 20) with 1048576. exact HK. }
  pose proof (digits2_pos_bounds (m * M)) as Hd. rewrite Pos2Z.inj_mul in Hd.
  set (d := Z.pos (digits2_pos (m * M))) in *.
  assert (HP : 2 ^ 104 <= Z.pos m * Z.pos M < 2 ^ 106).
  { change (2 ^ 104) with (4503599627370496 * 4503599627370496).
    change (2 ^ 106) with (9007199254740992 * 9007199254740992). nia. }
  assert (Hd105 : 105 <= d <= 106).
  { split.
    - assert (104 < d); [|lia]. apply (Z.pow_lt_mono_r_iff 2); lia.
    - assert (d - 1 < 106); [|lia]. apply (Z.pow_lt_mono_r_iff 2); lia. }
  assert (HD : 2 ^ (d - 53) <= 9007199254740992).
  { change 9007199254740992 with (2 ^ 53). apply Z.pow_le_mono_r; lia. }
  assert (HKS : 2 ^ (- (- k + - s)) = K * S).
  { unfold K, S. rewrite <- Z.pow_add_r by lia. f_equal. lia. }
  assert (HKS0 : 4503599627370496 * 1048576 <= K * S) by nia.
  assert (Hprod : 10 * (Z.pos m * Z.pos M) = (10 * q + r) * (K * S) + Z.pos m * delta).
  { rewrite Hm at 2. rewrite <- Hqr.
    transitivity (Z.pos m * (10 * Z.pos M)); [ring|]. rewrite HMeq, Hm. ring. }
  assert (Hr1 : 0 <= r * (K * S) <= 9 * (K * S)) by nia.
  assert (Hr2 : 0 <= Z.pos m * delta <= 4 * 9007199254740992) by nia.
  apply (binary_round_aux_trunc _ _ q d); trivial; try rewrite HKS; lia.
Qed.

Lemma c1_10_bits : Float64.c1_10 = S754_finite false 4953959590107546 (- 52).
Proof. reflexivity. Qed.

Lemma c0_90_bits : Float64.c0_90 = S754_finite false 8106479329266893 (- 53).
Proof. reflexivity. Qed.

Lemma credit_trunc (a : Z) :
  0 <= a < 2 ^ 32 ->
  Float64.trunc (Float64.mul (Float64.of_Z a) Float64.c1_10) = Some (a * 11 / 10).
Proof.
  intros Ha. rewrite c1_10_bits.
  apply (mul_constant_trunc a 11 4 52); trivial; lia.
Qed.

Lemma cash_trunc (a : Z) :
  0 <= a < 2 ^ 32 ->
  Float64.trunc (Float64.mul (Float64.of_Z a) Float64.c0_90) = Some (a * 9 / 10).
Proof.
  intros Ha. rewrite c0_90_bits.
  apply (mul_constant_trunc a 9 2 53); trivial; lia.
Qed.

(** ** Amounts *)

Lemma floor_of_div (amt : Z) (n d : positive) :
  floor_of amt n d = amt * Z.pos n / Z.pos d.
Proof. reflexivity. Qed.

Lemma wrap32_range (z : Z) : is_uint32 (wrap32 z).
Proof. unfold is_uint32, wrap32. apply Z.mod_pos_bound. lia. Qed.

Lemma wrap32_small (z : Z) : is_uint32 z -> wrap32 z = z.
Proof. unfold is_uint32, wrap32. intros H. apply Z.mod_small, H. Qed.

(** ** Same account, same id *)

(** The strategies compare ids, not references.  Two references to one account
    read one id; where ids are unique, two accounts have two ids. *)
Lemma same_reference_same_id (s : Store) (p q : loc) (a b : Account) :
  accs s !! p = Some a -> accs s !! q = Some b -> p = q -> id a = id b.
Proof. intros Ha Hb ->. congruence. Qed.

Lemma distinct_accounts_distinct_ids (s : Store) (p q : loc) (a b : Account) :
  unique_ids s ->
  accs s !! p = Some a -> accs s !! q = Some b ->
  (p <> q <-> id a <> id b).
Proof.
  intros Hu Ha Hb. split.
  - intros Hne Hid. apply Hne. exact (Hu p q a b Ha Hb Hid).
  - intros Hid Heq. apply Hid. exact (same_reference_same_id s p q a b Ha Hb Heq).
Qed.

Lemma floor_of_credit (amt : Z) : floor_of amt 110 100 = amt * 11 / 10.
Proof.
  rewrite floor_of_div. change (Z.pos 110) with (11 * 10). change (Z.pos 100) with (10 * 10).
  rewrite Z.mul_assoc. apply Z.div_mul_cancel_r; lia.
Qed.

Lemma floor_of_cash (amt : Z) : floor_of amt 90 100 = amt * 9 / 10.
Proof.
  rewrite floor_of_div. change (Z.pos 90) with (9 * 10). change (Z.pos 100) with (10 * 10).
  rewrite Z.mul_assoc. apply Z.div_mul_cancel_r; lia.
Qed.

(** ** The strategies and [makePayment] *)

Section ProgramFacts.

Variable out_of_range : spec_float -> Z.

Lemma uint32_of_float64_range (f : spec_float) :
  is_uint32 (uint32_of_float64 out_of_range f).
Proof.
  unfold uint32_of_float64.
  destruct (Float64.trunc f) as [z|]; [|apply wrap32_range].
  destruct ((0 <=? z) && (z <? 2 ^ 32)) eqn:E; [|apply wrap32_range].
  apply andb_prop in E as [E1 E2].
  apply Z.leb_le in E1. apply Z.ltb_lt in E2. split; trivial.
Qed.

Lemma uint32_of_float64_in_range (f : spec_float) (z : Z) :
  Float64.trunc f = Some z -> is_uint32 z ->
  uint32_of_float64 out_of_range f = z.
Proof.
  intros Ht [H0 H1]. unfold uint32_of_float64. rewrite Ht.
  apply Z.leb_le in H0. apply Z.ltb_lt in H1. rewrite H0, H1. reflexivity.
Qed.

Lemma effective_range (th : TransactionHandler) (amt : Z) :
  is_uint32 amt -> is_uint32 (effective out_of_range th amt).
Proof. destruct th; cbn [effective]; auto using uint32_of_float64_range. Qed.

Lemma effective_credit (amt : Z) :
  is_uint32 amt -> amt * 11 / 10 < 2 ^ 32 ->
  effective out_of_range CreditTransactionHandler amt = amt * 11 / 10.
Proof.
  intros Ha Hq. cbn [effective].
  apply uint32_of_float64_in_range; [apply credit_trunc, Ha|].
  split; [apply Z.div_pos; unfold is_uint32 in Ha; lia | trivial].
Qed.

Lemma effective_cash (amt : Z) :
  is_uint32 amt ->
  effective out_of_range CashTransactionHandler amt = amt * 9 / 10.
Proof.
  intros Ha. cbn [effective].
  apply uint32_of_float64_in_range; [apply cash_trunc, Ha|].
  unfold is_uint32 in *. split; [apply Z.div_pos; lia|].
  apply Z.div_lt_upper_bound; lia.
Qed.


Lemma pay_eval (th : TransactionHandler) (tp : loc) (s : Store) (t : Transaction) (a b : Account) :
  txns s !! tp = Some t ->
  accs s !! sender t = Some a ->
  accs s !! recipient t = Some b ->
  pay out_of_range th tp s =
    if id a =? id b then Ret (Some SelfTransactionError) s
    else if String.eqb (state t) CLOSED then Ret (Some AlreadyClosedError) s
    else if String.eqb (state t) EXPIRED then Ret (Some ExpiredTransactionError) s
    else if balance a <? effective out_of_range th (amount t)
         then Ret (Some InsufficientBalanceError) s
    else Ret None (settled out_of_range th tp t a b s).
Proof.
  intros Ht Ha Hb. unfold pay, bind, load_tx, load_acc. rewrite Ht, Ha, Hb.
  destruct (id a =? id b) eqn:Eid; [reflexivity|].
  destruct (String.eqb (state t) CLOSED); [reflexivity|].
  destruct (String.eqb (state t) EXPIRED); [reflexivity|].
  destruct (balance a <? effective out_of_range th (amount t)); [reflexivity|].
  assert (Hne : sender t <> recipient t).
  { intros E. rewrite E, Hb in Ha. injection Ha as ->. rewrite Z.eqb_refl in Eid. discriminate. }
  unfold update_balance, set_state, bind, load_acc, load_tx, ret. cbn [accs txns].
  rewrite Ha. cbn [accs txns].
  rewrite lookup_insert_ne, Hb by exact Hne. cbn [accs txns].
  rewrite Ht. reflexivity.
Qed.

(** A nil transaction, sender or recipient: the first dereference panics. *)
Lemma pay_fault (th : TransactionHandler) (tp : loc) (s : Store) :
  match txns s !! tp with
  | Some t => accs s !! sender t = None \/ accs s !! recipient t = None
  | None => True
  end ->
  pay out_of_range th tp s = Fault s.
Proof.
  unfold pay, bind, load_tx, load_acc.
  destruct (txns s !! tp) as [t|]; [|reflexivity].
  destruct (accs s !! sender t); [|reflexivity].
  destruct (accs s !! recipient t); [|reflexivity].
  intros [H|H]; discriminate.
Qed.

Lemma pay_error (th : TransactionHandler) (tp : loc) (s s' : Store) (e : string) :
  pay out_of_range th tp s = Ret (Some e) s' -> s' = s /\ settlement_error e.
Proof.
  unfold settlement_error.
  destruct (txns s !! tp) as [t|] eqn:Ht;
    [|rewrite pay_fault by (rewrite Ht; trivial); discriminate].
  destruct (accs s !! sender t) as [a|] eqn:Ha;
    [|rewrite pay_fault by (rewrite Ht; auto); discriminate].
  destruct (accs s !! recipient t) as [b|] eqn:Hb;
    [|rewrite pay_fault by (rewrite Ht; auto); discriminate].
  rewrite (pay_eval th tp s t a b Ht Ha Hb).
  repeat match goal with |- context [if ?c then _ else _] => destruct c end;
    intros H; inversion H; subst; auto.
Qed.

Lemma pay_panic (th : TransactionHandler) (tp : loc) (s s' : Store) :
  pay out_of_range th tp s = Fault s' -> s' = s.
Proof.
  destruct (txns s !! tp) as [t|] eqn:Ht;
    [|rewrite pay_fault by (rewrite Ht; trivial); congruence].
  destruct (accs s !! sender t) as [a|] eqn:Ha;
    [|rewrite pay_fault by (rewrite Ht; auto); congruence].
  destruct (accs s !! recipient t) as [b|] eqn:Hb;
    [|rewrite pay_fault by (rewrite Ht; auto); congruence].
  rewrite (pay_eval th tp s t a b Ht Ha Hb).
  repeat match goal with |- context [if ?c then _ else _] => destruct c end;
    discriminate.
Qed.

Lemma pay_success (th : TransactionHandler) (tp : loc) (s s' : Store) :
  pay out_of_range th tp s = Ret None s' ->
  exists t a b,
    txns s !! tp = Some t /\ accs s !! sender t = Some a /\ accs s !! recipient t = Some b /\
    id a <> id b /\ sender t <> recipient t /\
    state t <> CLOSED /\ state t <> EXPIRED /\
    effective out_of_range th (amount t) <= balance a /\
    s' = settled out_of_range th tp t a b s.
Proof.
  destruct (txns s !! tp) as [t|] eqn:Ht;
    [|rewrite pay_fault by (rewrite Ht; trivial); discriminate].
  destruct (accs s !! sender t) as [a|] eqn:Ha;
    [|rewrite pay_fault by (rewrite Ht; auto); discriminate].
  destruct (accs s !! recipient t) as [b|] eqn:Hb;
    [|rewrite pay_fault by (rewrite Ht; auto); discriminate].
  rewrite (pay_eval th tp s t a b Ht Ha Hb).
  destruct (Z.eqb_spec (id a) (id b)) as [|Hid]; [discriminate|].
  destruct (String.eqb_spec (state t) CLOSED) as [|Hc]; [discriminate|].
  destruct (String.eqb_spec (state t) EXPIRED) as [|He]; [discriminate|].
  destruct (Z.ltb_spec (balance a) (effective out_of_range th (amount t))) as [|Hbal];
    [discriminate|].
  intros [= <-]. exists t, a, b. repeat split; trivial.
  intros E. rewrite E, Hb in Ha. congruence.
Qed.

Lemma makePayment_bound (tp : loc) (s : Store) (t : Transaction) (th : TransactionHandler) :
  txns s !! tp = Some t -> transactionHandler t = Some th ->
  makePayment out_of_range tp s = pay out_of_range th tp s.
Proof.
  intros Ht Hh. unfold makePayment, bind, load_tx at 1. rewrite Ht, Hh.
  destruct (pay out_of_range th tp s) as [[e|] s'|]; reflexivity.
Qed.

Lemma makePayment_inv (tp : loc) (s : Store) (r : error) (s' : Store) :
  makePayment out_of_range tp s = Ret r s' ->
  exists t th, txns s !! tp = Some t /\ transactionHandler t = Some th /\
               pay out_of_range th tp s = Ret r s'.
Proof.
  intros H. destruct (txns s !! tp) as [t|] eqn:Ht.
  - destruct (transactionHandler t) as [th|] eqn:Hh.
    + exists t, th. rewrite (makePayment_bound tp s t th Ht Hh) in H. auto.
    + unfold makePayment, bind, load_tx in H. rewrite Ht, Hh in H. discriminate.
  - unfold makePayment, bind, load_tx in H. rewrite Ht in H. discriminate.
Qed.


Lemma settled_sender (th : TransactionHandler) (tp : loc) (t : Transaction) (a b : Account)
    (s : Store) :
  sender t <> recipient t ->
  accs (settled out_of_range th tp t a b s) !! sender t
  = Some (with_balance a (wrap32 (balance a - effective out_of_range th (amount t)))).
Proof.
  intros Hne. unfold settled. cbn [accs].
  rewrite lookup_insert_ne by congruence. apply lookup_insert_eq.
Qed.

Lemma settled_recipient (th : TransactionHandler) (tp : loc) (t : Transaction) (a b : Account)
    (s : Store) :
  accs (settled out_of_range th tp t a b s) !! recipient t
  = Some (with_balance b (wrap32 (balance b + effective out_of_range th (amount t)))).
Proof. unfold settled. cbn [accs]. apply lookup_insert_eq. Qed.

Lemma settled_tx (th : TransactionHandler) (tp : loc) (t : Transaction) (a b : Account)
    (s : Store) :
  txns (settled out_of_range th tp t a b s) !! tp = Some (with_state t CLOSED).
Proof. unfold settled. cbn [txns]. apply lookup_insert_eq. Qed.

Lemma wf_balance (s : Store) (p : loc) (a : Account) :
  wf_store s -> accs s !! p = Some a -> is_uint32 (balance a).
Proof. intros [Ha _] H. apply (Ha p a H). Qed.

Lemma wf_amount (s : Store) (p : loc) (t : Transaction) :
  wf_store s -> txns s !! p = Some t -> is_uint32 (amount t).
Proof. intros [_ Ht] H. apply (Ht p t H). Qed.

(** The debit cannot wrap: it comes after the check. *)
Lemma debit_exact (th : TransactionHandler) (amt bal : Z) :
  is_uint32 amt -> is_uint32 bal ->
  effective out_of_range th amt <= bal ->
  wrap32 (bal - effective out_of_range th amt) = bal - effective out_of_range th amt.
Proof.
  intros Hamt Hbal Hle. pose proof (effective_range th amt Hamt) as He.
  apply wrap32_small. unfold is_uint32 in *. lia.
Qed.

(** The settlement of an open transaction between two accounts, the sender
    holding enough. *)
Lemma settlement (tp : loc) (s : Store) (t : Transaction) (th : TransactionHandler)
    (a b : Account) :
  wf_store s ->
  txns s !! tp = Some t ->
  transactionHandler t = Some th ->
  accs s !! sender t = Some a ->
  accs s !! recipient t = Some b ->
  id a <> id b ->
  state t <> CLOSED -> state t <> EXPIRED ->
  effective out_of_range th (amount t) <= balance a ->
  makePayment out_of_range tp s = Ret None (settled out_of_range th tp t a b s) /\
  balance_at (sender t) (settled out_of_range th tp t a b s)
    = Some (balance a - effective out_of_range th (amount t)) /\
  balance_at (recipient t) (settled out_of_range th tp t a b s)
    = Some (wrap32 (balance b + effective out_of_range th (amount t))) /\
  state_at tp (settled out_of_range th tp t a b s) = Some CLOSED.
Proof.
  intros Hwf Ht Hh Ha Hb Hid Hc He Hbal.
  assert (Hne : sender t <> recipient t).
  { intros E. rewrite E, Hb in Ha. congruence. }
  rewrite (makePayment_bound tp s t th Ht Hh), (pay_eval th tp s t a b Ht Ha Hb).
  destruct (Z.eqb_spec (id a) (id b)) as [|_]; [contradiction|].
  destruct (String.eqb_spec (state t) CLOSED) as [|_]; [contradiction|].
  destruct (String.eqb_spec (state t) EXPIRED) as [|_]; [contradiction|].
  destruct (Z.ltb_spec (balance a) (effective out_of_range th (amount t))) as [|_]; [lia|].
  unfold balance_at, state_at.
  rewrite settled_sender, settled_recipient, settled_tx by trivial. cbn.
  rewrite debit_exact by eauto using wf_amount, wf_balance.
  repeat split; reflexivity.
Qed.

(** C1 (amended). For each of the methods CREDIT, CASH and DEBIT, paying an OPEN
    transaction whose sender and recipient have different ids, the sender
    holding at least the effective amount of the method, succeeds: the sender
    has exactly the effective amount less, the recipient has its balance plus
    the effective amount modulo 2^32, that is exactly the effective amount more
    when the sum fits a uint32, and the transaction is CLOSED. *)
Theorem makePayment_settles (tp : loc) (s : Store) (t : Transaction)
    (th : TransactionHandler) (a b : Account) :
  wf_store s ->
  txns s !! tp = Some t ->
  handler_of (paymentMethod t) = Some th ->
  transactionHandler t = Some th ->
  state t = OPEN ->
  accs s !! sender t = Some a ->
  accs s !! recipient t = Some b ->
  id a <> id b ->
  effective out_of_range th (amount t) <= balance a ->
  exists s',
    makePayment out_of_range tp s = Ret None s' /\
    balance_at (sender t) s' = Some (balance a - effective out_of_range th (amount t)) /\
    balance_at (recipient t) s'
      = Some (wrap32 (balance b + effective out_of_range th (amount t))) /\
    (balance b + effective out_of_range th (amount t) < 2 ^ 32 ->
     balance_at (recipient t) s'
       = Some (balance b + effective out_of_range th (amount t))) /\
    state_at tp s' = Some CLOSED.
Proof.
  intros Hwf Ht _ Hh Hopen Ha Hb Hid Hbal.
  destruct (settlement tp s t th a b) as (Hrun & Hs & Hr & Hst); trivial;
    try (rewrite Hopen; discriminate).
  exists (settled out_of_range th tp t a b s). repeat split; trivial.
  intros Hfit. rewrite Hr, wrap32_small; [reflexivity|].
  pose proof (wf_balance s _ b Hwf Hb) as Hbb.
  pose proof (effective_range th _ (wf_amount s _ t Hwf Ht)) as Heff.
  unfold is_uint32 in *. lia.
Qed.

(** C4. Whenever makePayment returns an error, the error is one of the four
    settlement errors and the store is the one before the call: no balance and
    no state has changed. *)
Theorem makePayment_error_atomic (tp : loc) (s s' : Store) (e : string) :
  makePayment out_of_range tp s = Ret (Some e) s' ->
  s' = s /\ settlement_error e.
Proof.
  intros H. apply makePayment_inv in H as (t & th & _ & _ & H).
  exact (pay_error th tp s s' e H).
Qed.

Lemma effective_spec (th : TransactionHandler) (amt : Z) :
  fee_fits th amt -> effective out_of_range th amt = spec_effective th amt.
Proof.
  intros [Ha Hc]. destruct th; cbn [spec_effective].
  - rewrite floor_of_credit. apply effective_credit; [exact Ha|].
    specialize (Hc eq_refl). unfold is_uint32 in Ha.
    apply Z.div_lt_upper_bound; lia.
  - rewrite floor_of_cash. apply effective_cash, Ha.
  - reflexivity.
Qed.

(** C5 (amended). Each strategy validates in the order self-transaction,
    closed, expired, insufficient balance, and returns at the first check that
    fails: SelfTransactionError when sender and recipient have the same id (so
    when they are one account), whatever the state and balance; with different
    ids, AlreadyClosedError when CLOSED, ExpiredTransactionError when EXPIRED,
    and otherwise InsufficientBalanceError when the balance of the sender is
    less than the uint32 the strategy computes, which is the effective amount
    of the specification for cash, for debit, and for credit up to
    3904515723. *)
Theorem pay_validation_order (th : TransactionHandler) (tp : loc) (s : Store)
    (t : Transaction) (a b : Account) :
  txns s !! tp = Some t ->
  accs s !! sender t = Some a ->
  accs s !! recipient t = Some b ->
  (sender t = recipient t \/ id a = id b ->
   pay out_of_range th tp s = Ret (Some SelfTransactionError) s) /\
  (id a <> id b -> state t = CLOSED ->
   pay out_of_range th tp s = Ret (Some AlreadyClosedError) s) /\
  (id a <> id b -> state t = EXPIRED ->
   pay out_of_range th tp s = Ret (Some ExpiredTransactionError) s) /\
  (id a <> id b -> state t <> CLOSED -> state t <> EXPIRED ->
   balance a < effective out_of_range th (amount t) ->
   pay out_of_range th tp s = Ret (Some InsufficientBalanceError) s) /\
  (id a <> id b -> state t <> CLOSED -> state t <> EXPIRED ->
   fee_fits th (amount t) ->
   balance a < spec_effective th (amount t) ->
   pay out_of_range th tp s = Ret (Some InsufficientBalanceError) s).
Proof.
  intros Ht Ha Hb. rewrite (pay_eval th tp s t a b Ht Ha Hb).
  assert (Hlow : id a <> id b -> state t <> CLOSED -> state t <> EXPIRED ->
                 balance a < effective out_of_range th (amount t) ->
                 (if id a =? id b then Ret (Some SelfTransactionError) s
                  else if String.eqb (state t) CLOSED then Ret (Some AlreadyClosedError) s
                  else if String.eqb (state t) EXPIRED
                       then Ret (Some ExpiredTransactionError) s
                  else if balance a <? effective out_of_range th (amount t)
                       then Ret (Some InsufficientBalanceError) s
                  else Ret None (settled out_of_range th tp t a b s))
                 = Ret (Some InsufficientBalanceError) s).
  { intros Hid Hc He Hbal. destruct (Z.eqb_spec (id a) (id b)) as [|_]; [contradiction|].
    destruct (String.eqb_spec (state t) CLOSED) as [|_]; [contradiction|].
    destruct (String.eqb_spec (state t) EXPIRED) as [|_]; [contradiction|].
    destruct (Z.ltb_spec (balance a) (effective out_of_range th (amount t))) as [_|];
      [reflexivity|lia]. }
  repeat split.
  - intros Hsame. assert (Hid : id a = id b).
    { destruct Hsame as [E|E]; [|exact E]. rewrite E, Hb in Ha. congruence. }
    rewrite Hid, Z.eqb_refl. reflexivity.
  - intros Hid Hst. destruct (Z.eqb_spec (id a) (id b)) as [|_]; [contradiction|].
    rewrite Hst. reflexivity.
  - intros Hid Hst. destruct (Z.eqb_spec (id a) (id b)) as [|_]; [contradiction|].
    rewrite Hst. reflexivity.
  - exact Hlow.
  - intros Hid Hc He Hfit Hbal. apply Hlow; trivial.
    rewrite (effective_spec th (amount t) Hfit). exact Hbal.
Qed.

(** C3 (amended). On a transaction whose strategy is not bound makePayment
    returns nothing: the call through the nil handler panics, before any
    validation, with the store untouched. *)
Theorem makePayment_unbound_panics (tp : loc) (s : Store) (t : Transaction) :
  txns s !! tp = Some t ->
  transactionHandler t = None ->
  makePayment out_of_range tp s = Fault s.
Proof.
  intros Ht Hh. unfold makePayment, bind, load_tx. rewrite Ht, Hh. reflexivity.
Qed.


(** C7 (amended). A CLOSED transaction with a bound strategy is never paid
    again: makePayment returns an error and leaves the store as it is, the error
    being AlreadyClosedError when sender and recipient have different ids (and
    SelfTransactionError when they have the same); after a successful
    makePayment a second one on the same transaction returns
    AlreadyClosedError. *)
Theorem closed_is_terminal (tp : loc) (s : Store) :
  (forall t th a b,
      txns s !! tp = Some t -> transactionHandler t = Some th ->
      accs s !! sender t = Some a -> accs s !! recipient t = Some b ->
      state t = CLOSED ->
      makePayment out_of_range tp s
      = Ret (Some (if id a =? id b then SelfTransactionError else AlreadyClosedError)) s) /\
  (forall s0,
      makePayment out_of_range tp s0 = Ret None s ->
      makePayment out_of_range tp s = Ret (Some AlreadyClosedError) s).
Proof.
  split.
  - intros t th a b Ht Hh Ha Hb Hst.
    rewrite (makePayment_bound tp s t th Ht Hh), (pay_eval th tp s t a b Ht Ha Hb), Hst.
    destruct (id a =? id b); reflexivity.
  - intros s0 H. apply makePayment_inv in H as (t & th & Ht & Hh & H).
    apply pay_success in H as (t' & a & b & Ht' & Ha & Hb & Hid & Hne & _ & _ & _ & ->).
    assert (t' = t) by congruence. subst t'.
    rewrite (makePayment_bound tp _ (with_state t CLOSED) th (settled_tx th tp t a b s0) Hh).
    rewrite (pay_eval th tp _ (with_state t CLOSED) _ _
               (settled_tx th tp t a b s0)
               (settled_sender th tp t a b s0 Hne)
               (settled_recipient th tp t a b s0)).
    cbn [with_balance with_state id state].
    destruct (Z.eqb_spec (id a) (id b)) as [|_]; [contradiction|]. reflexivity.
Qed.

(** C8 (amended). A successful settlement conserves the sum of the two
    balances modulo 2^32, and exactly when the recipient's balance plus the
    effective amount fits a uint32. *)
Theorem settlement_conserves (tp : loc) (s s' : Store) (t : Transaction)
    (th : TransactionHandler) (a b : Account) :
  wf_store s ->
  txns s !! tp = Some t ->
  transactionHandler t = Some th ->
  accs s !! sender t = Some a ->
  accs s !! recipient t = Some b ->
  makePayment out_of_range tp s = Ret None s' ->
  exists a' b',
    accs s' !! sender t = Some a' /\ accs s' !! recipient t = Some b' /\
    wrap32 (balance a' + balance b') = wrap32 (balance a + balance b) /\
    (balance b + effective out_of_range th (amount t) < 2 ^ 32 ->
     balance a' + balance b' = balance a + balance b).
Proof.
  intros Hwf Ht Hh Ha Hb H.
  rewrite (makePayment_bound tp s t th Ht Hh) in H.
  apply pay_success in H as (t' & a' & b' & Ht' & Ha' & Hb' & Hid & Hne & _ & _ & Hbal & ->).
  assert (t' = t) by congruence. subst t'.
  assert (a' = a) by congruence. assert (b' = b) by congruence. subst a' b'.
  pose proof (wf_balance s _ a Hwf Ha) as Hba.
  pose proof (wf_balance s _ b Hwf Hb) as Hbb.
  pose proof (wf_amount s _ t Hwf Ht) as Hamt.
  pose proof (effective_range th _ Hamt) as Heff.
  eexists _, _. split; [apply settled_sender, Hne|]. split; [apply settled_recipient|].
  cbn [with_balance balance]. rewrite debit_exact by trivial.
  set (e := effective out_of_range th (amount t)) in *. split.
  - unfold wrap32. rewrite Z.add_mod_idemp_r by lia. f_equal. lia.
  - intros Hfit. rewrite (wrap32_small (balance b + e)); [lia|].
    unfold is_uint32 in *. lia.
Qed.

(** C10. The credit to the recipient is an unchecked uint32 addition: a
    settlement whose recipient would reach 2^32 or more passes every
    validation, and the recipient is left with 2^32 less than that, which is
    less than it had; the two balances then sum to 2^32 less than before. *)
Theorem recipient_credit_wraps (tp : loc) (s : Store) (t : Transaction)
    (th : TransactionHandler) (a b : Account) :
  wf_store s ->
  txns s !! tp = Some t ->
  transactionHandler t = Some th ->
  accs s !! sender t = Some a ->
  accs s !! recipient t = Some b ->
  id a <> id b ->
  state t <> CLOSED -> state t <> EXPIRED ->
  effective out_of_range th (amount t) <= balance a ->
  2 ^ 32 <= balance b + effective out_of_range th (amount t) ->
  exists s' a' b',
    makePayment out_of_range tp s = Ret None s' /\
    accs s' !! sender t = Some a' /\ accs s' !! recipient t = Some b' /\
    balance a' = balance a - effective out_of_range th (amount t) /\
    balance b' = balance b + effective out_of_range th (amount t) - 2 ^ 32 /\
    balance b' < balance b /\
    balance a' + balance b' = balance a + balance b - 2 ^ 32 /\
    wrap32 (balance a' + balance b') = wrap32 (balance a + balance b).
Proof.
  intros Hwf Ht Hh Ha Hb Hid Hc He Hbal Hover.
  assert (Hne : sender t <> recipient t).
  { intros E. rewrite E, Hb in Ha. congruence. }
  destruct (settlement tp s t th a b) as (Hrun & _); trivial.
  pose proof (wf_balance s _ a Hwf Ha) as Hba.
  pose proof (wf_balance s _ b Hwf Hb) as Hbb.
  pose proof (effective_range th _ (wf_amount s _ t Hwf Ht)) as Heff.
  eexists _, _, _. split; [exact Hrun|].
  split; [apply settled_sender, Hne|]. split; [apply settled_recipient|].
  cbn [with_balance balance]. rewrite debit_exact by eauto using wf_amount.
  set (e := effective out_of_range th (amount t)) in *.
  assert (Hw : wrap32 (balance b + e) = balance b + e - 2 ^ 32).
  { unfold wrap32. symmetry. apply Z.mod_unique with (q := 1); unfold is_uint32 in *; lia. }
  rewrite Hw. unfold is_uint32 in *. repeat split; try lia.
  unfold wrap32.
  replace (balance a - e + (balance b + e - 2 ^ 32))
    with (balance a + balance b + (-1) * 2 ^ 32) by lia.
  apply Z.mod_add. lia.
Qed.


Lemma makePayment_panic (tp : loc) (s s' : Store) :
  makePayment out_of_range tp s = Fault s' -> s' = s.
Proof.
  unfold makePayment, bind, load_tx at 1.
  destruct (txns s !! tp) as [t|]; [|congruence].
  destruct (transactionHandler t) as [th|]; [|congruence].
  destruct (pay out_of_range th tp s) as [[e|] s1|s1] eqn:E; try discriminate.
  intros [= <-]. exact (pay_panic th tp s s1 E).
Qed.

Lemma wf_settled (th : TransactionHandler) (tp : loc) (t : Transaction) (a b : Account)
    (s : Store) :
  wf_store s ->
  txns s !! tp = Some t -> accs s !! sender t = Some a -> accs s !! recipient t = Some b ->
  wf_store (settled out_of_range th tp t a b s).
Proof.
  intros [Hacc Htx] Ht Ha Hb. split; unfold settled; cbn [accs txns].
  - repeat apply map_Forall_insert_2; trivial; cbn [with_balance id balance];
      (split; [eapply Hacc; eassumption | apply wrap32_range]).
  - apply map_Forall_insert_2; trivial. exact (Htx tp t Ht).
Qed.

Lemma makePayment_wf (tp : loc) (s : Store) :
  wf_store s -> wf_store (final_store (makePayment out_of_range tp s)).
Proof.
  intros Hwf. destruct (makePayment out_of_range tp s) as [[e|] s'|s'] eqn:E; cbn [final_store].
  - apply makePayment_inv in E as (t & th & _ & _ & E).
    apply pay_error in E as [-> _]. exact Hwf.
  - apply makePayment_inv in E as (t & th & _ & _ & E).
    apply pay_success in E as (t' & a & b & Ht & Ha & Hb & _ & _ & _ & _ & _ & ->).
    apply wf_settled; trivial.
  - apply makePayment_panic in E as ->. exact Hwf.
Qed.

End ProgramFacts.

(** ** Selection and sequences of calls *)

Lemma selectTransactionHandler_eval (tp : loc) (s : Store) (t : Transaction) :
  txns s !! tp = Some t ->
  selectTransactionHandler tp s =
    match handler_of (paymentMethod t) with
    | Some h => Ret None (rebound tp t h s)
    | None => Ret (Some HandlerNotFoundError) s
    end.
Proof.
  intros Ht. unfold selectTransactionHandler, handler_of, bind, load_tx at 1. rewrite Ht.
  repeat (match goal with |- context [String.eqb ?x ?y] => destruct (String.eqb x y) end;
          [unfold set_handler, bind, load_tx, ret; rewrite Ht; reflexivity|]).
  reflexivity.
Qed.

Lemma selectTransactionHandler_nil (tp : loc) (s : Store) :
  txns s !! tp = None -> selectTransactionHandler tp s = Fault s.
Proof. intros Ht. unfold selectTransactionHandler, bind, load_tx. rewrite Ht. reflexivity. Qed.

Lemma handler_of_unknown (m : PaymentMethod) :
  m <> CREDIT -> m <> DEBIT -> m <> CASH -> handler_of m = None.
Proof.
  intros H1 H2 H3. unfold handler_of.
  destruct (String.eqb_spec m CREDIT); [contradiction|].
  destruct (String.eqb_spec m CASH); [contradiction|].
  destruct (String.eqb_spec m DEBIT); [contradiction|]. reflexivity.
Qed.

Lemma selectTransactionHandler_wf (tp : loc) (s : Store) :
  wf_store s -> wf_store (final_store (selectTransactionHandler tp s)).
Proof.
  intros Hwf. destruct (txns s !! tp) as [t|] eqn:Ht.
  - rewrite (selectTransactionHandler_eval tp s t Ht).
    destruct (handler_of (paymentMethod t)) as [h|]; cbn [final_store]; [|exact Hwf].
    destruct Hwf as [Hacc Htx]. split; unfold rebound; cbn [accs txns]; trivial.
    apply map_Forall_insert_2; trivial. exact (Htx tp t Ht).
  - rewrite selectTransactionHandler_nil by trivial. exact Hwf.
Qed.

Lemma run_wf (out_of_range : spec_float -> Z) (ops : list op) (s : Store) :
  wf_store s -> wf_store (final_store (run out_of_range ops s)).
Proof.
  revert s. induction ops as [|o ops IH]; intros s Hwf; [exact Hwf|].
  cbn [run]. unfold bind.
  assert (Hstep : wf_store (final_store (step out_of_range o s))).
  { destruct o; cbn [step]; auto using selectTransactionHandler_wf, makePayment_wf. }
  destruct (step out_of_range o s) as [e s'|s']; cbn [final_store] in *; auto.
Qed.

Lemma selectTransactionHandler_bound (tp : loc) (s : Store) (t : Transaction)
    (h : TransactionHandler) :
  txns s !! tp = Some t ->
  handler_of (paymentMethod t) = Some h ->
  exists s',
    selectTransactionHandler tp s = Ret None s' /\
    handler_at tp s' = Some (Some h) /\
    forall out_of_range, makePayment out_of_range tp s' = pay out_of_range h tp s'.
Proof.
  intros Ht Hh. exists (rebound tp t h s).
  rewrite (selectTransactionHandler_eval tp s t Ht), Hh.
  assert (Hl : txns (rebound tp t h s) !! tp = Some (with_handler t h))
    by (unfold rebound; cbn [txns]; apply lookup_insert_eq).
  split; [reflexivity|]. split.
  - unfold handler_at. rewrite Hl. reflexivity.
  - intros out_of_range.
    apply (makePayment_bound out_of_range tp _ (with_handler t h) h Hl). reflexivity.
Qed.

(** C6. Selection binds the strategy of the payment method and returns nil:
    read back, the strategy field holds the credit strategy for CREDIT, the
    cash one for CASH, the debit one for DEBIT, and makePayment then runs it.
    For any other method it returns the error and leaves the strategy field as
    it was, unset if it was unset.  In all cases it changes nothing but the
    strategy field of the transaction, and selecting again changes nothing
    more. *)
Theorem selectTransactionHandler_binds (tp : loc) (s : Store) (t : Transaction) :
  txns s !! tp = Some t ->
  (paymentMethod t = CREDIT ->
   exists s',
     selectTransactionHandler tp s = Ret None s' /\
     handler_at tp s' = Some (Some CreditTransactionHandler) /\
     forall out_of_range,
       makePayment out_of_range tp s' = pay out_of_range CreditTransactionHandler tp s') /\
  (paymentMethod t = CASH ->
   exists s',
     selectTransactionHandler tp s = Ret None s' /\
     handler_at tp s' = Some (Some CashTransactionHandler) /\
     forall out_of_range,
       makePayment out_of_range tp s' = pay out_of_range CashTransactionHandler tp s') /\
  (paymentMethod t = DEBIT ->
   exists s',
     selectTransactionHandler tp s = Ret None s' /\
     handler_at tp s' = Some (Some DebitTransactionHandler) /\
     forall out_of_range,
       makePayment out_of_range tp s' = pay out_of_range DebitTransactionHandler tp s') /\
  (paymentMethod t <> CREDIT -> paymentMethod t <> DEBIT -> paymentMethod t <> CASH ->
   selectTransactionHandler tp s = Ret (Some HandlerNotFoundError) s /\
   handler_at tp (final_store (selectTransactionHandler tp s))
   = Some (transactionHandler t) /\
   (transactionHandler t = None ->
    handler_at tp (final_store (selectTransactionHandler tp s)) = Some None)) /\
  (accs (final_store (selectTransactionHandler tp s)) = accs s /\
   (forall q, q <> tp ->
      txns (final_store (selectTransactionHandler tp s)) !! q = txns s !! q) /\
   exists t',
     txns (final_store (selectTransactionHandler tp s)) !! tp = Some t' /\
     txid t' = txid t /\ amount t' = amount t /\ sender t' = sender t /\
     recipient t' = recipient t /\ state t' = state t /\
     paymentMethod t' = paymentMethod t) /\
  (selectTransactionHandler tp (final_store (selectTransactionHandler tp s))
   = selectTransactionHandler tp s /\
   handler_at tp (final_store
                    (selectTransactionHandler tp (final_store (selectTransactionHandler tp s))))
   = handler_at tp (final_store (selectTransactionHandler tp s))).
Proof.
  intros Ht.
  split; [intros Hm; apply (selectTransactionHandler_bound tp s t _ Ht); rewrite Hm; reflexivity|].
  split; [intros Hm; apply (selectTransactionHandler_bound tp s t _ Ht); rewrite Hm; reflexivity|].
  split; [intros Hm; apply (selectTransactionHandler_bound tp s t _ Ht); rewrite Hm; reflexivity|].
  rewrite (selectTransactionHandler_eval tp s t Ht).
  split.
  { intros H1 H2 H3. rewrite handler_of_unknown by trivial. split; [reflexivity|].
    cbn [final_store]. unfold handler_at. rewrite Ht. cbn. split; [reflexivity|].
    intros ->. reflexivity. }
  assert (Hidem : selectTransactionHandler tp
                    (final_store match handler_of (paymentMethod t) with
                                 | Some h => Ret None (rebound tp t h s)
                                 | None => Ret (Some HandlerNotFoundError) s
                                 end)
                  = match handler_of (paymentMethod t) with
                    | Some h => Ret None (rebound tp t h s)
                    | None => Ret (Some HandlerNotFoundError) s
                    end).
  { destruct (handler_of (paymentMethod t)) as [h|] eqn:Eh; cbn [final_store].
    - rewrite (selectTransactionHandler_eval tp _ (with_handler t h))
        by (unfold rebound; cbn [txns]; apply lookup_insert_eq).
      cbn [with_handler paymentMethod]. rewrite Eh. f_equal.
      unfold rebound. cbn [accs txns]. f_equal. apply insert_insert_eq.
    - rewrite (selectTransactionHandler_eval tp s t Ht), Eh. reflexivity. }
  split.
  - destruct (handler_of (paymentMethod t)) as [h|] eqn:Eh; cbn [final_store].
    + split; [reflexivity|]. split.
      * intros q Hq. unfold rebound. cbn [txns]. apply lookup_insert_ne. congruence.
      * exists (with_handler t h). unfold rebound. cbn [txns]. rewrite lookup_insert_eq.
        repeat split; reflexivity.
    + split; [reflexivity|]. split; [reflexivity|].
      exists t. repeat split; trivial.
  - split; [exact Hidem|].
    exact (f_equal (fun r => handler_at tp (final_store r)) Hidem).
Qed.

(** C9. Along any sequence of selections and payments every balance stays a
    non-negative integer (below 2^32), and a payment that succeeds next debits
    the sender without wrapping: the check before it leaves a non-negative
    difference, and that difference is the new balance. *)
Theorem balances_never_negative (out_of_range : spec_float -> Z) (ops : list op) (s : Store) :
  wf_store s ->
  (forall p a,
      accs (final_store (run out_of_range ops s)) !! p = Some a -> 0 <= balance a < 2 ^ 32) /\
  (forall th tp t a s',
      txns (final_store (run out_of_range ops s)) !! tp = Some t ->
      accs (final_store (run out_of_range ops s)) !! sender t = Some a ->
      pay out_of_range th tp (final_store (run out_of_range ops s)) = Ret None s' ->
      0 <= balance a - effective out_of_range th (amount t) /\
      balance_at (sender t) s' = Some (balance a - effective out_of_range th (amount t))).
Proof.
  intros Hwf. apply (run_wf out_of_range ops) in Hwf.
  set (s1 := final_store (run out_of_range ops s)) in *. split.
  - intros p a Ha. exact (wf_balance s1 p a Hwf Ha).
  - intros th tp t a s' Ht Ha H.
    apply pay_success in H as (t' & a' & b & Ht' & Ha' & Hb & _ & Hne & _ & _ & Hbal & ->).
    assert (t' = t) by congruence. subst t'. assert (a' = a) by congruence. subst a'.
    split; [lia|]. unfold balance_at. rewrite settled_sender by trivial. cbn.
    rewrite debit_exact by eauto using wf_amount, wf_balance. reflexivity.
Qed.

Lemma floor_of_tenths (amt : Z) (n : positive) :
  floor_of amt (n * 10) 100 = amt * Z.pos n / 10.
Proof.
  rewrite floor_of_div, Pos2Z.inj_mul, Z.mul_assoc.
  change (Z.pos 100) with (10 * 10). apply Z.div_mul_cancel_r; lia.
Qed.

(** C2 (amended). The effective amount of CREDIT is floor(amount * 1.10)
    whenever that fits a uint32, which it does for the amounts up to
    3904515723 and no other; the effective amount of CASH is
    floor(amount * 0.90) and that of DEBIT is the amount, for every uint32
    amount. *)
Theorem effective_is_floor (out_of_range : spec_float -> Z) (amt : Z) :
  is_uint32 amt ->
  (floor_of amt 110 100 < 2 ^ 32 ->
   effective out_of_range CreditTransactionHandler amt = floor_of amt 110 100) /\
  (floor_of amt 110 100 < 2 ^ 32 <-> amt <= 3904515723) /\
  effective out_of_range CashTransactionHandler amt = floor_of amt 90 100 /\
  effective out_of_range DebitTransactionHandler amt = amt.
Proof.
  intros Ha.
  change (floor_of amt 110 100) with (floor_of amt (11 * 10) 100).
  change (floor_of amt 90 100) with (floor_of amt (9 * 10) 100).
  rewrite !floor_of_tenths.
  split; [apply effective_credit, Ha|]. split.
  - unfold is_uint32 in Ha. change (2 ^ 32) with 4294967296. split; intros H.
    + pose proof (Z.div_mod (amt * 11) 10 ltac:(lia)).
      pose proof (Z.mod_pos_bound (amt * 11) 10 ltac:(lia)). lia.
    + apply Z.div_lt_upper_bound; lia.
  - split; [apply effective_cash, Ha | reflexivity].
Qed.

(** ** The theorems at the stores of the demonstration *)

(** Closes the side conditions on a store written out in full. *)
Ltac wf_concrete :=
  split; unfold demo_store; cbn [accs txns];
  repeat apply map_Forall_insert_2; try apply map_Forall_empty;
  cbn; unfold is_uint8, is_uint32; lia.

Lemma makePayment_settles_demo :
  exists s',
    makePayment low32 3%nat (selected (demo_store CASH 55 gustavo pedro)) = Ret None s' /\
    balance_at 1%nat s' = Some 101 /\
    balance_at 2%nat s' = Some 54 /\
    state_at 3%nat s' = Some CLOSED.
Proof.
  destruct (makePayment_settles low32 3%nat (selected (demo_store CASH 55 gustavo pedro))
              (with_handler (transaction CASH 55) CashTransactionHandler)
              CashTransactionHandler gustavo pedro)
    as (s' & Hrun & Hs & _ & Hr & Hst).
  - wf_concrete.
  - reflexivity.
  - reflexivity.
  - reflexivity.
  - reflexivity.
  - reflexivity.
  - reflexivity.
  - cbn. lia.
  - vm_compute. discriminate.
  - exists s'. split; [exact Hrun|]. split; [exact Hs|]. split; [|exact Hst].
    apply Hr. vm_compute. reflexivity.
Defined.

Lemma recipient_credit_not_exact :
  (exists s',
      makePayment low32 3%nat (selected full_store) = Ret None s' /\
      balance_at 2%nat s' = Some 4 /\ balance_at 1%nat s' = Some 5) /\
  state_at 3%nat (selected full_store) = Some OPEN /\
  balance_at 1%nat (selected full_store) = Some 10 /\
  balance_at 2%nat (selected full_store) = Some 4294967295 /\
  effective low32 DebitTransactionHandler 5 = 5.
Proof.
  split; [|repeat split; reflexivity].
  eexists. split; [vm_compute; reflexivity|]. split; reflexivity.
Qed.

Lemma effective_is_floor_55 :
  effective low32 CreditTransactionHandler 55 = floor_of 55 110 100 /\
  effective low32 CashTransactionHandler 55 = floor_of 55 90 100 /\
  effective low32 DebitTransactionHandler 55 = 55.
Proof.
  destruct (effective_is_floor low32 55) as (Hcredit & _ & Hcash & Hdebit).
  - unfold is_uint32. lia.
  - split; [apply Hcredit; vm_compute; reflexivity|]. split; [exact Hcash | exact Hdebit].
Defined.

Lemma credit_surcharge_overflows :
  effective low32 CreditTransactionHandler 4000000000 = 105032704 /\
  floor_of 4000000000 110 100 = 4400000000 /\
  (forall out_of_range,
      effective out_of_range CreditTransactionHandler 4000000000 < floor_of 4000000000 110 100).
Proof.
  split; [vm_compute; reflexivity|]. split; [reflexivity|].
  intros out_of_range.
  pose proof (uint32_of_float64_range out_of_range
                (Float64.mul (Float64.of_Z 4000000000) Float64.c1_10)) as [_ H].
  change (floor_of 4000000000 110 100) with 4400000000. cbn [effective]. lia.
Qed.

Lemma makePayment_unbound_panics_demo :
  makePayment low32 3%nat (demo_store CASH 55 gustavo pedro)
  = Fault (demo_store CASH 55 gustavo pedro).
Proof.
  apply (makePayment_unbound_panics low32 3%nat _ (transaction CASH 55)); reflexivity.
Defined.

Lemma unbound_makePayment_returns_no_error :
  handler_at 3%nat (demo_store CREDIT 55 gustavo pedro) = Some None /\
  makePayment low32 3%nat (demo_store CREDIT 55 gustavo pedro)
  = Fault (demo_store CREDIT 55 gustavo pedro).
Proof. split; reflexivity. Qed.

Lemma makePayment_error_atomic_poor :
  makePayment low32 3%nat (selected poor_store) = Ret (Some InsufficientBalanceError) (selected poor_store) /\
  settlement_error InsufficientBalanceError.
Proof.
  assert (H : makePayment low32 3%nat (selected poor_store)
              = Ret (Some InsufficientBalanceError) (selected poor_store))
    by (vm_compute; reflexivity).
  split; [exact H|].
  exact (proj2 (makePayment_error_atomic low32 3%nat _ _ _ H)).
Defined.

Lemma pay_validation_order_poor :
  pay low32 DebitTransactionHandler 3%nat poor_store
  = Ret (Some InsufficientBalanceError) poor_store.
Proof.
  pose proof (pay_validation_order low32 DebitTransactionHandler 3%nat poor_store
                (transaction DEBIT 55) (mkAccount 1 "My first account" 10 []) pedro
                eq_refl eq_refl eq_refl) as (_ & _ & _ & _ & H).
  apply H; cbn; try discriminate; try lia.
  split; [unfold is_uint32; lia | discriminate].
Defined.

Lemma checks_differ_from_claim :
  ((forall out_of_range, exists s',
       pay out_of_range CreditTransactionHandler 3%nat large_credit_store = Ret None s') /\
   state_at 3%nat large_credit_store = Some OPEN /\
   balance_at 1%nat large_credit_store = Some 4294967295 /\
   floor_of 3904515724 110 100 = 4294967296) /\
  (pay low32 DebitTransactionHandler 3%nat twin_store
   = Ret (Some SelfTransactionError) twin_store /\
   state_at 3%nat twin_store = Some CLOSED /\
   (1%nat : loc) <> 2%nat /\
   SelfTransactionError <> AlreadyClosedError).
Proof.
  split.
  - split; [|repeat split; reflexivity].
    intros out_of_range.
    rewrite (pay_eval out_of_range CreditTransactionHandler 3%nat large_credit_store
               (transaction CREDIT 3904515724) (mkAccount 1 "rich" 4294967295 []) pedro
               eq_refl eq_refl eq_refl).
    cbn [id balance state amount transaction gustavo pedro].
    change (1 =? 2) with false. change (String.eqb OPEN CLOSED) with false.
    change (String.eqb OPEN EXPIRED) with false. cbv iota.
    pose proof (uint32_of_float64_range out_of_range
                  (Float64.mul (Float64.of_Z 3904515724) Float64.c1_10)) as [_ H].
    cbn [effective].
    destruct (Z.ltb_spec 4294967295
                (uint32_of_float64 out_of_range
                   (Float64.mul (Float64.of_Z 3904515724) Float64.c1_10))) as [Hlt|_];
      [change (2 ^ 32) with 4294967296 in H; lia|].
    eexists. reflexivity.
  - repeat split; try reflexivity; discriminate.
Qed.

Lemma selectTransactionHandler_binds_demo :
  exists s',
    selectTransactionHandler 3%nat (demo_store CASH 55 gustavo pedro) = Ret None s' /\
    handler_at 3%nat s' = Some (Some CashTransactionHandler).
Proof.
  destruct (selectTransactionHandler_binds 3%nat (demo_store CASH 55 gustavo pedro)
              (transaction CASH 55) eq_refl) as (_ & H & _).
  destruct (H eq_refl) as (s' & Hsel & Hread & _).
  exists s'. split; [exact Hsel | exact Hread].
Defined.

Lemma closed_is_terminal_demo :
  makePayment low32 3%nat
    (final_store (makePayment low32 3%nat (selected (demo_store CASH 55 gustavo pedro))))
  = Ret (Some AlreadyClosedError)
      (final_store (makePayment low32 3%nat (selected (demo_store CASH 55 gustavo pedro)))).
Proof.
  apply (proj2 (closed_is_terminal low32 3%nat _) (selected (demo_store CASH 55 gustavo pedro))).
  vm_compute. reflexivity.
Defined.

Lemma closed_self_transaction_error :
  state_at 3%nat closed_self_store = Some CLOSED /\
  handler_at 3%nat closed_self_store = Some (Some DebitTransactionHandler) /\
  makePayment low32 3%nat closed_self_store = Ret (Some SelfTransactionError) closed_self_store /\
  SelfTransactionError <> AlreadyClosedError.
Proof. repeat split; try reflexivity. discriminate. Qed.

Lemma settlement_conserves_demo :
  exists a' b',
    accs (final_store (makePayment low32 3%nat (selected (demo_store CREDIT 55 gustavo pedro))))
      !! 1%nat = Some a' /\
    accs (final_store (makePayment low32 3%nat (selected (demo_store CREDIT 55 gustavo pedro))))
      !! 2%nat = Some b' /\
    balance a' + balance b' = 150 + 5.
Proof.
  destruct (settlement_conserves low32 3%nat (selected (demo_store CREDIT 55 gustavo pedro))
              (final_store (makePayment low32 3%nat (selected (demo_store CREDIT 55 gustavo pedro))))
              (with_handler (transaction CREDIT 55) CreditTransactionHandler)
              CreditTransactionHandler gustavo pedro)
    as (a' & b' & Ha & Hb & _ & Hsum).
  - wf_concrete.
  - reflexivity.
  - reflexivity.
  - reflexivity.
  - reflexivity.
  - vm_compute. reflexivity.
  - exists a', b'. split; [exact Ha|]. split; [exact Hb|].
    apply Hsum. vm_compute. reflexivity.
Defined.

Lemma wrapped_credit_loses_value :
  (exists s',
      makePayment low32 3%nat (selected full_store) = Ret None s' /\
      balance_at 1%nat s' = Some 5 /\ balance_at 2%nat s' = Some 4) /\
  balance_at 1%nat (selected full_store) = Some 10 /\
  balance_at 2%nat (selected full_store) = Some 4294967295 /\
  5 + 4 <> 10 + 4294967295.
Proof.
  split; [|repeat split; try reflexivity; lia].
  eexists. split; [vm_compute; reflexivity|]. split; reflexivity.
Qed.

Lemma balances_never_negative_demo :
  accs (final_store (run low32 [SelectHandler 3%nat; MakePayment 3%nat; MakePayment 3%nat]
                       (demo_store CASH 55 gustavo pedro))) !! 1%nat
  = Some (mkAccount 1 "My first account" 101 []) /\
  0 <= 101 < 2 ^ 32.
Proof.
  assert (H : accs (final_store (run low32 [SelectHandler 3%nat; MakePayment 3%nat; MakePayment 3%nat]
                                   (demo_store CASH 55 gustavo pedro))) !! 1%nat
              = Some (mkAccount 1 "My first account" 101 []))
    by (vm_compute; reflexivity).
  split; [exact H|].
  refine (proj1 (balances_never_negative low32 _ (demo_store CASH 55 gustavo pedro) _) _ _ H).
  wf_concrete.
Defined.

Lemma recipient_credit_wraps_full :
  exists s' a' b',
    makePayment low32 3%nat (selected full_store) = Ret None s' /\
    accs s' !! 1%nat = Some a' /\ accs s' !! 2%nat = Some b' /\
    balance a' = 5 /\ balance b' = 4 /\ balance b' < 4294967295.
Proof.
  destruct (recipient_credit_wraps low32 3%nat (selected full_store)
              (with_handler (transaction DEBIT 5) DebitTransactionHandler)
              DebitTransactionHandler (mkAccount 1 "payer" 10 []) (mkAccount 2 "full" 4294967295 []))
    as (s' & a' & b' & Hrun & Ha & Hb & Hba & Hbb & Hlt & _).
  - unfold selected, full_store. wf_concrete.
  - reflexivity.
  - reflexivity.
  - reflexivity.
  - reflexivity.
  - cbn. lia.
  - cbn. discriminate.
  - cbn. discriminate.
  - cbn. lia.
  - cbn. lia.
  - exists s', a', b'. repeat split; trivial.
Defined.

(** ** The scenarios of the specification *)

Example scenario_cash :
  effective low32 CashTransactionHandler 55 = 49 /\
  report (main_flow low32 3%nat (demo_store CASH 55 gustavo pedro))
  = (Some None, Some 101, Some 54, Some CLOSED).
Proof. split; vm_compute; reflexivity. Qed.

Example scenario_credit :
  effective low32 CreditTransactionHandler 55 = 60 /\
  report (main_flow low32 3%nat (demo_store CREDIT 55 gustavo pedro))
  = (Some None, Some 90, Some 65, Some CLOSED).
Proof. split; vm_compute; reflexivity. Qed.

Example scenario_debit :
  report (main_flow low32 3%nat poor_store)
  = (Some (Some InsufficientBalanceError), Some 10, Some 5, Some OPEN).
Proof. vm_compute. reflexivity. Qed.

Example scenario_unknown_method :
  report (selectTransactionHandler 3%nat (demo_store "X" 55 gustavo pedro))
  = (Some (Some HandlerNotFoundError), Some 150, Some 5, Some OPEN) /\
  handler_at 3%nat (final_store (selectTransactionHandler 3%nat (demo_store "X" 55 gustavo pedro)))
  = Some None.
Proof. split; vm_compute; reflexivity. Qed.

(** * More of the program *)

Section MoreFacts.

Variable out_of_range : spec_float -> Z.

(** What a call of [makePayment] can leave: the store as it was, or the
    settlement. *)
Lemma makePayment_final (tp : loc) (s : Store) :
  (final_store (makePayment out_of_range tp s) = s /\
   forall s', makePayment out_of_range tp s <> Ret None s') \/
  exists t th a b,
    txns s !! tp = Some t /\ transactionHandler t = Some th /\
    accs s !! sender t = Some a /\ accs s !! recipient t = Some b /\
    id a <> id b /\ sender t <> recipient t /\
    state t <> CLOSED /\ state t <> EXPIRED /\
    effective out_of_range th (amount t) <= balance a /\
    makePayment out_of_range tp s = Ret None (settled out_of_range th tp t a b s).
Proof.
  destruct (makePayment out_of_range tp s) as [[e|] s'|s'] eqn:E.
  - left. apply makePayment_inv in E as (t & th & _ & _ & E).
    apply pay_error in E as [-> _]. split; [reflexivity | discriminate].
  - right. apply makePayment_inv in E as (t & th & Ht & Hh & E).
    apply pay_success in E as (t' & a & b & Ht' & Ha & Hb & Hid & Hne & Hc & He & Hbal & ->).
    assert (t' = t) by congruence. subst t'.
    exists t, th, a, b. repeat split; trivial.
  - left. apply makePayment_panic in E as ->. split; [reflexivity | discriminate].
Qed.

End MoreFacts.

Lemma selectTransactionHandler_final (tp : loc) (s : Store) :
  final_store (selectTransactionHandler tp s) = s \/
  exists t h,
    txns s !! tp = Some t /\ handler_of (paymentMethod t) = Some h /\
    selectTransactionHandler tp s = Ret None (rebound tp t h s).
Proof.
  destruct (txns s !! tp) as [t|] eqn:Ht.
  - rewrite (selectTransactionHandler_eval tp s t Ht).
    destruct (handler_of (paymentMethod t)) as [h|] eqn:Eh; [right | left; reflexivity].
    exists t, h. auto.
  - left. rewrite selectTransactionHandler_nil by trivial. reflexivity.
Qed.

Lemma same_identity_refl (a : Account) : same_identity a a.
Proof. repeat split. Qed.

Lemma same_order_refl (t : Transaction) : same_order t t.
Proof. repeat split. Qed.

Lemma same_identity_lookup (m : gmap loc Account) (q : loc) :
  option_Forall2 same_identity (m !! q) (m !! q).
Proof. destruct (m !! q); constructor. apply same_identity_refl. Qed.

Lemma same_funds_lookup (m : gmap loc Account) (q : loc) :
  option_Forall2 same_funds (m !! q) (m !! q).
Proof. destruct (m !! q); constructor. repeat split. Qed.

(** X1. A call of makePayment writes two balances and one state, nothing
    else: every account other than the sender and the recipient keeps its id,
    name and balance; the sender and the recipient keep their id and name;
    every other transaction of the store is as it was; the paid transaction
    keeps its id, amount, sender, recipient, method and handler, and its state
    stays or becomes CLOSED. *)
Theorem makePayment_frame (out_of_range : spec_float -> Z) (tp : loc) (s : Store) :
  (forall q t, txns s !! tp = Some t -> q <> sender t -> q <> recipient t ->
     option_Forall2 same_funds
       (accs s !! q) (accs (final_store (makePayment out_of_range tp s)) !! q)) /\
  (forall q, option_Forall2 same_identity
               (accs s !! q) (accs (final_store (makePayment out_of_range tp s)) !! q)) /\
  (forall q, q <> tp ->
     txns (final_store (makePayment out_of_range tp s)) !! q = txns s !! q) /\
  (forall t, txns s !! tp = Some t ->
     exists t', txns (final_store (makePayment out_of_range tp s)) !! tp = Some t' /\
                same_order t t' /\ transactionHandler t' = transactionHandler t /\
                state_step (state t) (state t')).
Proof.
  destruct (makePayment_final out_of_range tp s)
    as [[-> _] | (t & th & a & b & Ht & Hh & Ha & Hb & Hid & Hne & Hc & He & Hbal & ->)].
  - repeat split; trivial.
    + intros q t _ _ _. apply same_funds_lookup.
    + intros q. apply same_identity_lookup.
    + intros t Ht. exists t. repeat split; trivial. left. reflexivity.
  - cbn [final_store]. unfold settled. cbn [accs txns]. repeat split.
    + intros q t' Ht' H1 H2. assert (t' = t) by congruence. subst t'.
      rewrite !lookup_insert_ne by congruence. apply same_funds_lookup.
    + intros q. destruct (decide (q = recipient t)) as [->|Hq1].
      { rewrite lookup_insert_eq, Hb. constructor. repeat split. }
      rewrite lookup_insert_ne by congruence.
      destruct (decide (q = sender t)) as [->|Hq2].
      { rewrite lookup_insert_eq, Ha. constructor. repeat split. }
      rewrite lookup_insert_ne by congruence. apply same_identity_lookup.
    + intros q Hq. apply lookup_insert_ne. congruence.
    + intros t' Ht'. assert (t' = t) by congruence. subst t'.
      exists (with_state t CLOSED). rewrite lookup_insert_eq.
      repeat split; trivial. right. auto.
Qed.

(** X2. The only panics are nil dereferences.  makePayment panics exactly when
    the transaction is nil, or its handler is not bound, or its sender or
    recipient is nil; selectTransactionHandler panics exactly when the
    transaction is nil; a call that panics has changed nothing. *)
Theorem panics_are_nil_dereferences (out_of_range : spec_float -> Z) (tp : loc) (s : Store) :
  ((exists s', makePayment out_of_range tp s = Fault s') <->
   match txns s !! tp with
   | None => True
   | Some t => transactionHandler t = None \/
               accs s !! sender t = None \/ accs s !! recipient t = None
   end) /\
  ((exists s', selectTransactionHandler tp s = Fault s') <-> txns s !! tp = None) /\
  (forall s', makePayment out_of_range tp s = Fault s' -> s' = s) /\
  (forall s', selectTransactionHandler tp s = Fault s' -> s' = s).
Proof.
  split; [|split; [|split]].
  - destruct (txns s !! tp) as [t|] eqn:Ht.
    + destruct (transactionHandler t) as [th|] eqn:Hh.
      * rewrite (makePayment_bound out_of_range tp s t th Ht Hh).
        destruct (accs s !! sender t) as [a|] eqn:Ha;
          [|rewrite pay_fault by (rewrite Ht; auto); split; eauto].
        destruct (accs s !! recipient t) as [b|] eqn:Hb;
          [|rewrite pay_fault by (rewrite Ht; auto); split; eauto].
        rewrite (pay_eval out_of_range th tp s t a b Ht Ha Hb). split.
        -- intros [s' H]. exfalso.
           repeat match type of H with (if ?c then _ else _) = _ => destruct c end;
             discriminate.
        -- intros [H|[H|H]]; discriminate.
      * split; [auto|]. intros _. exists s.
        unfold makePayment, bind, load_tx. rewrite Ht, Hh. reflexivity.
    + split; [trivial|]. intros _. exists s.
      unfold makePayment, bind, load_tx. rewrite Ht. reflexivity.
  - destruct (txns s !! tp) as [t|] eqn:Ht.
    + rewrite (selectTransactionHandler_eval tp s t Ht). split; [|discriminate].
      intros [s' H]. destruct (handler_of (paymentMethod t)); discriminate.
    + rewrite selectTransactionHandler_nil by trivial. split; eauto.
  - intros s'. apply makePayment_panic.
  - intros s' H. destruct (txns s !! tp) as [t|] eqn:Ht.
    + rewrite (selectTransactionHandler_eval tp s t Ht) in H.
      destruct (handler_of (paymentMethod t)); discriminate.
    + rewrite selectTransactionHandler_nil in H by trivial. congruence.
Qed.

(** X3. makePayment returns nil exactly when the handler is bound, sender and
    recipient are accounts with different ids, the state is neither CLOSED nor
    EXPIRED, and the sender holds at least the effective amount.  The state
    check is a deny list: any other state, the empty string of a zero value
    included, is paid. *)
Theorem makePayment_succeeds_iff (out_of_range : spec_float -> Z) (tp : loc) (s : Store) :
  (exists s', makePayment out_of_range tp s = Ret None s') <->
  (exists t th a b,
      txns s !! tp = Some t /\ transactionHandler t = Some th /\
      accs s !! sender t = Some a /\ accs s !! recipient t = Some b /\
      id a <> id b /\ state t <> CLOSED /\ state t <> EXPIRED /\
      effective out_of_range th (amount t) <= balance a).
Proof.
  split.
  - intros [s' H].
    destruct (makePayment_final out_of_range tp s)
      as [[_ Hno] | (t & th & a & b & Ht & Hh & Ha & Hb & Hid & _ & Hc & He & Hbal & _)].
    + destruct (Hno s' H).
    + exists t, th, a, b. repeat split; trivial.
  - intros (t & th & a & b & Ht & Hh & Ha & Hb & Hid & Hc & He & Hbal).
    exists (settled out_of_range th tp t a b s).
    rewrite (makePayment_bound out_of_range tp s t th Ht Hh),
            (pay_eval out_of_range th tp s t a b Ht Ha Hb).
    destruct (Z.eqb_spec (id a) (id b)) as [|_]; [contradiction|].
    destruct (String.eqb_spec (state t) CLOSED) as [|_]; [contradiction|].
    destruct (String.eqb_spec (state t) EXPIRED) as [|_]; [contradiction|].
    destruct (Z.ltb_spec (balance a) (effective out_of_range th (amount t))) as [|_]; [lia|].
    reflexivity.
Qed.

(** X4. What the fee does to the amount.  CASH moves the amount less a tenth
    rounded up, never more than the amount, and exactly the amount only when
    it is 0; CREDIT (for amounts whose surcharge fits a uint32) moves the
    amount plus a tenth rounded down, never less than the amount, and exactly
    the amount only below 10. *)
Theorem fee_bounds (out_of_range : spec_float -> Z) (amt : Z) :
  is_uint32 amt ->
  effective out_of_range CashTransactionHandler amt = amt - (amt + 9) / 10 /\
  effective out_of_range CashTransactionHandler amt <= amt /\
  (effective out_of_range CashTransactionHandler amt = amt <-> amt = 0) /\
  (amt <= 3904515723 ->
   effective out_of_range CreditTransactionHandler amt = amt + amt / 10 /\
   amt <= effective out_of_range CreditTransactionHandler amt /\
   (effective out_of_range CreditTransactionHandler amt = amt <-> amt <= 9)).
Proof.
  intros Ha. pose proof Ha as [Ha0 Ha1]. change (2 ^ 32) with 4294967296 in Ha1.
  rewrite (effective_cash out_of_range amt Ha).
  pose proof (Z.div_mod (amt * 9) 10 ltac:(lia)) as D9.
  pose proof (Z.mod_pos_bound (amt * 9) 10 ltac:(lia)) as M9.
  pose proof (Z.div_mod (amt + 9) 10 ltac:(lia)) as D1.
  pose proof (Z.mod_pos_bound (amt + 9) 10 ltac:(lia)) as M1.
  pose proof (Z.div_mod amt 10 ltac:(lia)) as D0.
  pose proof (Z.mod_pos_bound amt 10 ltac:(lia)) as M0.
  pose proof (Z.div_mod (amt * 11) 10 ltac:(lia)) as D11.
  pose proof (Z.mod_pos_bound (amt * 11) 10 ltac:(lia)) as M11.
  repeat split; try lia.
  - rewrite effective_credit; trivial; [lia|].
    change (2 ^ 32) with 4294967296. lia.
  - rewrite effective_credit; trivial; [lia|].
    change (2 ^ 32) with 4294967296. lia.
  - rewrite effective_credit; trivial; [lia|].
    change (2 ^ 32) with 4294967296. lia.
  - rewrite effective_credit; trivial; [lia|].
    change (2 ^ 32) with 4294967296. lia.
Qed.

(** X5. The sequence of [main], for any transaction.  When the method is one of
    the three, the payment runs the strategy of the method, whatever was bound
    before, and the log holds the error of the payment if any.  When it is not,
    [main] logs the error of the selection and pays all the same: with the
    strategy bound earlier if there is one, and into a panic, the line already
    logged, if there is none. *)
Theorem main_steps_cases (out_of_range : spec_float -> Z) (tp : loc) (s : Store)
    (t : Transaction) :
  txns s !! tp = Some t ->
  (forall h, handler_of (paymentMethod t) = Some h ->
     main_steps out_of_range tp s =
       match pay out_of_range h tp (rebound tp t h s) with
       | Ret e s' => (log_line e, Ret tt s')
       | Fault s' => ([], Fault s')
       end) /\
  (handler_of (paymentMethod t) = None ->
     main_steps out_of_range tp s =
       match makePayment out_of_range tp s with
       | Ret e s' => (HandlerNotFoundError :: log_line e, Ret tt s')
       | Fault s' => ([HandlerNotFoundError], Fault s')
       end) /\
  (handler_of (paymentMethod t) = None -> transactionHandler t = None ->
     main_steps out_of_range tp s = ([HandlerNotFoundError], Fault s)).
Proof.
  intros Ht. unfold main_steps.
  rewrite (selectTransactionHandler_eval tp s t Ht). repeat split.
  - intros h Hh. rewrite Hh.
    rewrite (makePayment_bound out_of_range tp (rebound tp t h s) (with_handler t h) h)
      by (trivial; unfold rebound; cbn [txns]; apply lookup_insert_eq).
    destruct (pay out_of_range h tp (rebound tp t h s)) as [e s'|s']; reflexivity.
  - intros Hh. rewrite Hh.
    destruct (makePayment out_of_range tp s) as [e s'|s']; reflexivity.
  - intros Hh Hnone. rewrite Hh. unfold makePayment, bind, load_tx.
    rewrite Ht, Hnone. reflexivity.
Qed.

Lemma state_step_trans (st1 st2 st3 : TransactionState) :
  state_step st1 st2 -> state_step st2 st3 -> state_step st1 st3.
Proof.
  unfold state_step. intros [->|(H1 & H2 & ->)] [->|(H3 & H4 & ->)]; auto.
Qed.

Lemma evolves_refl (s : Store) : evolves s s.
Proof.
  split; intros q.
  - apply same_identity_lookup.
  - destruct (txns s !! q); constructor. split; [apply same_order_refl | left; reflexivity].
Qed.

Lemma evolves_trans (s1 s2 s3 : Store) : evolves s1 s2 -> evolves s2 s3 -> evolves s1 s3.
Proof.
  intros [A12 T12] [A23 T23]. split; intros q.
  - specialize (A12 q). specialize (A23 q).
    destruct A12 as [a1 a2 (H1 & H2)|]; inversion A23 as [a2' a3 (H4 & H5)|]; subst;
      constructor. repeat split; congruence.
  - specialize (T12 q). specialize (T23 q).
    destruct T12 as [t1 t2 [(H1 & H2 & H3 & H4 & H5) S12]|];
      inversion T23 as [t2' t3 [(H6 & H7 & H8 & H9 & H10) S23]|]; subst; constructor.
    split; [repeat split; congruence | eapply state_step_trans; eassumption].
Qed.

Lemma makePayment_evolves (out_of_range : spec_float -> Z) (tp : loc) (s : Store) :
  evolves s (final_store (makePayment out_of_range tp s)).
Proof.
  destruct (makePayment_final out_of_range tp s)
    as [[-> _] | (t & th & a & b & Ht & Hh & Ha & Hb & Hid & Hne & Hc & He & Hbal & ->)];
    [apply evolves_refl|].
  cbn [final_store]. unfold settled. split; intros q; cbn [accs txns].
  - destruct (decide (q = recipient t)) as [->|Hq1].
    { rewrite lookup_insert_eq, Hb. constructor. repeat split. }
    rewrite lookup_insert_ne by congruence.
    destruct (decide (q = sender t)) as [->|Hq2].
    { rewrite lookup_insert_eq, Ha. constructor. repeat split. }
    rewrite lookup_insert_ne by congruence. apply same_identity_lookup.
  - destruct (decide (q = tp)) as [->|Hq].
    + rewrite lookup_insert_eq, Ht. constructor. split; [repeat split|]. right. auto.
    + rewrite lookup_insert_ne by congruence.
      destruct (txns s !! q); constructor.
      split; [apply same_order_refl | left; reflexivity].
Qed.

Lemma selectTransactionHandler_evolves (tp : loc) (s : Store) :
  evolves s (final_store (selectTransactionHandler tp s)).
Proof.
  destruct (selectTransactionHandler_final tp s) as [-> | (t & h & Ht & Hh & ->)];
    [apply evolves_refl|].
  cbn [final_store]. unfold rebound. split; intros q; cbn [accs txns].
  - apply same_identity_lookup.
  - destruct (decide (q = tp)) as [->|Hq].
    + rewrite lookup_insert_eq, Ht. constructor. split; [repeat split | left; reflexivity].
    + rewrite lookup_insert_ne by congruence.
      destruct (txns s !! q); constructor.
      split; [apply same_order_refl | left; reflexivity].
Qed.

Lemma run_evolves (out_of_range : spec_float -> Z) (ops : list op) (s : Store) :
  evolves s (final_store (run out_of_range ops s)).
Proof.
  revert s. induction ops as [|o ops IH]; intros s; [apply evolves_refl|].
  cbn [run]. unfold bind.
  assert (Hstep : evolves s (final_store (step out_of_range o s))).
  { destruct o; cbn [step]; auto using selectTransactionHandler_evolves, makePayment_evolves. }
  destruct (step out_of_range o s) as [e s'|s']; cbn [final_store] in *; [|exact Hstep].
  eapply evolves_trans; [exact Hstep | apply IH].
Qed.

(** X6. No sequence of selections and payments creates or deletes an account
    or a transaction, or changes the id or the name of an account, or the id,
    amount, sender, recipient or payment method of a transaction. *)
Theorem run_keeps_identities (out_of_range : spec_float -> Z) (ops : list op) (s : Store) :
  (forall q a, accs s !! q = Some a ->
     exists a', accs (final_store (run out_of_range ops s)) !! q = Some a' /\
                same_identity a a') /\
  (forall q, accs s !! q = None ->
     accs (final_store (run out_of_range ops s)) !! q = None) /\
  (forall q t, txns s !! q = Some t ->
     exists t', txns (final_store (run out_of_range ops s)) !! q = Some t' /\
                same_order t t') /\
  (forall q, txns s !! q = None ->
     txns (final_store (run out_of_range ops s)) !! q = None).
Proof.
  destruct (run_evolves out_of_range ops s) as [HA HT]. repeat split.
  - intros q a Hq. specialize (HA q). rewrite Hq in HA.
    inversion HA as [x a' Hid|]; subst. exists a'. auto.
  - intros q Hq. specialize (HA q). rewrite Hq in HA. inversion HA. reflexivity.
  - intros q t Hq. specialize (HT q). rewrite Hq in HT.
    inversion HT as [x t' [Hord _]|]; subst. exists t'. auto.
  - intros q Hq. specialize (HT q). rewrite Hq in HT. inversion HT. reflexivity.
Qed.

(** X7. Along any sequence of selections and payments the state of a
    transaction either stays or moves, once, from a state that is neither
    CLOSED nor EXPIRED to CLOSED.  So CLOSED and EXPIRED are kept for ever, and
    no transaction becomes EXPIRED or OPEN. *)
Theorem run_state_monotone (out_of_range : spec_float -> Z) (ops : list op) (s : Store)
    (q : loc) (t : Transaction) :
  txns s !! q = Some t ->
  exists t',
    txns (final_store (run out_of_range ops s)) !! q = Some t' /\
    state_step (state t) (state t') /\
    (state t = CLOSED -> state t' = CLOSED) /\
    (state t = EXPIRED -> state t' = EXPIRED) /\
    (state t' = EXPIRED -> state t = EXPIRED) /\
    (state t' = OPEN -> state t = OPEN).
Proof.
  intros Hq. destruct (run_evolves out_of_range ops s) as [_ HT].
  specialize (HT q). rewrite Hq in HT.
  inversion HT as [x t' [_ Hst]|]; subst. exists t'.
  split; [reflexivity|]. split; [exact Hst|].
  destruct Hst as [E|(H1 & H2 & E)]; rewrite E; repeat split; trivial;
    try contradiction; try discriminate.
Qed.

Lemma sum_balances_delete (m : gmap loc Account) (p : loc) (a : Account) :
  m !! p = Some a -> sum_balances m = balance a + sum_balances (delete p m).
Proof.
  intros Hp. unfold sum_balances.
  apply (map_fold_delete_L (fun _ a acc => balance a + acc)); [|exact Hp].
  intros. lia.
Qed.

Lemma sum_balances_insert (m : gmap loc Account) (p : loc) (a a' : Account) :
  m !! p = Some a ->
  sum_balances (<[p := a']> m) = sum_balances m - balance a + balance a'.
Proof.
  intros Hp.
  rewrite (sum_balances_delete (<[p := a']> m) p a') by apply lookup_insert_eq.
  rewrite delete_insert_eq, (sum_balances_delete m p a Hp). lia.
Qed.

Lemma makePayment_total (out_of_range : spec_float -> Z) (tp : loc) (s : Store) :
  wrap32 (total_balance (final_store (makePayment out_of_range tp s)))
  = wrap32 (total_balance s).
Proof.
  destruct (makePayment_final out_of_range tp s)
    as [[-> _] | (t & th & a & b & Ht & Hh & Ha & Hb & Hid & Hne & Hc & He & Hbal & ->)];
    [reflexivity|].
  cbn [final_store]. unfold total_balance, settled. cbn [accs].
  rewrite (sum_balances_insert _ (recipient t) b)
    by (rewrite lookup_insert_ne by congruence; exact Hb).
  rewrite (sum_balances_insert _ (sender t) a) by exact Ha.
  cbn [with_balance balance]. unfold wrap32.
  set (e := effective out_of_range th (amount t)).
  rewrite (Z.mod_eq (balance a - e)), (Z.mod_eq (balance b + e)) by lia.
  replace (sum_balances (accs s) - balance a
           + (balance a - e - 2 ^ 32 * ((balance a - e) / 2 ^ 32)) - balance b
           + (balance b + e - 2 ^ 32 * ((balance b + e) / 2 ^ 32)))
    with (sum_balances (accs s)
          + (- ((balance a - e) / 2 ^ 32) - (balance b + e) / 2 ^ 32) * 2 ^ 32) by lia.
  apply Z.mod_add. lia.
Qed.

Lemma run_total_wrap (out_of_range : spec_float -> Z) (ops : list op) (s : Store) :
  wrap32 (total_balance (final_store (run out_of_range ops s)))
  = wrap32 (total_balance s).
Proof.
  revert s. induction ops as [|o ops IH]; intros s; [reflexivity|].
  cbn [run]. unfold bind.
  assert (Hstep : wrap32 (total_balance (final_store (step out_of_range o s)))
                  = wrap32 (total_balance s)).
  { destruct o as [tp|tp]; cbn [step]; [|apply makePayment_total].
    destruct (selectTransactionHandler_final tp s) as [-> | (t & h & _ & _ & ->)];
      reflexivity. }
  destruct (step out_of_range o s) as [e s'|s']; cbn [final_store] in *; [|exact Hstep].
  rewrite IH. exact Hstep.
Qed.

(** A payment loses [2^32] when the credit wraps, and nothing otherwise. *)
Lemma makePayment_total_loss (out_of_range : spec_float -> Z) (tp : loc) (s : Store) :
  wf_store s ->
  exists k, 0 <= k <= 1 /\
    total_balance (final_store (makePayment out_of_range tp s))
    = total_balance s - k * 2 ^ 32.
Proof.
  intros Hwf.
  destruct (makePayment_final out_of_range tp s)
    as [[-> _] | (t & th & a & b & Ht & Hh & Ha & Hb & Hid & Hne & Hc & He & Hbal & ->)].
  { exists 0. split; lia. }
  pose proof (wf_balance s _ a Hwf Ha) as Hba.
  pose proof (wf_balance s _ b Hwf Hb) as Hbb.
  pose proof (effective_range out_of_range th _ (wf_amount s _ t Hwf Ht)) as Heff.
  cbn [final_store]. unfold total_balance, settled. cbn [accs].
  rewrite (sum_balances_insert _ (recipient t) b)
    by (rewrite lookup_insert_ne by congruence; exact Hb).
  rewrite (sum_balances_insert _ (sender t) a) by exact Ha.
  cbn [with_balance balance].
  rewrite debit_exact by eauto using wf_amount.
  set (e := effective out_of_range th (amount t)) in *.
  exists ((balance b + e) / 2 ^ 32). unfold is_uint32 in *. split.
  - split; [apply Z.div_pos; lia|].
    assert ((balance b + e) / 2 ^ 32 < 2); [|lia].
    apply Z.div_lt_upper_bound; lia.
  - unfold wrap32. rewrite (Z.mod_eq (balance b + e)) by lia. lia.
Qed.

(** X8. No sequence of selections and payments creates money.  The sum of all
    the balances is the same modulo 2^32 before and after; and since the only
    inexact step is a credit that wraps, the sum after is the sum before less
    2^32 for each such credit, at most one per call. *)
Theorem run_conserves_total (out_of_range : spec_float -> Z) (ops : list op) (s : Store) :
  wrap32 (total_balance (final_store (run out_of_range ops s)))
  = wrap32 (total_balance s) /\
  (wf_store s ->
   exists k, 0 <= k <= Z.of_nat (length ops) /\
     total_balance (final_store (run out_of_range ops s))
     = total_balance s - k * 2 ^ 32).
Proof.
  split; [apply run_total_wrap|].
  revert s. induction ops as [|o ops IH]; intros s Hwf.
  { exists 0. cbn. split; lia. }
  cbn [run]. unfold bind.
  assert (Hstep : exists k, 0 <= k <= 1 /\
            total_balance (final_store (step out_of_range o s))
            = total_balance s - k * 2 ^ 32).
  { destruct o as [tp|tp]; cbn [step]; [|apply makePayment_total_loss, Hwf].
    exists 0. split; [lia|].
    destruct (selectTransactionHandler_final tp s) as [-> | (t & h & _ & _ & ->)];
      unfold total_balance; cbn; lia. }
  assert (Hwf' : wf_store (final_store (step out_of_range o s))).
  { destruct o; cbn [step]; auto using selectTransactionHandler_wf, makePayment_wf. }
  destruct Hstep as (k1 & Hk1 & E1).
  rewrite length_cons, Nat2Z.inj_succ.
  destruct (step out_of_range o s) as [e s'|s']; cbn [final_store] in *.
  - destruct (IH s' Hwf') as (k2 & Hk2 & E2). exists (k1 + k2). split; [lia|].
    rewrite E2, E1. lia.
  - exists k1. split; [lia | exact E1].
Qed.

Lemma with_balance_id (a : Account) : with_balance a (balance a) = a.
Proof. destruct a. reflexivity. Qed.

Lemma with_balance_twice (a : Account) (x y : Z) :
  with_balance (with_balance a x) y = with_balance a y.
Proof. reflexivity. Qed.

(** X9. Paying back undoes a payment.  After a payment from one account to
    another whose credit did not wrap, a payment of a second transaction in the
    opposite direction with the same effective amount succeeds and leaves every
    account exactly as it was before the two. *)
Theorem reverse_payment_restores (out_of_range : spec_float -> Z) (tp1 tp2 : loc)
    (s s1 : Store) (t1 t2 : Transaction) (th1 th2 : TransactionHandler) (a b : Account) :
  wf_store s ->
  tp1 <> tp2 ->
  txns s !! tp1 = Some t1 -> transactionHandler t1 = Some th1 ->
  txns s !! tp2 = Some t2 -> transactionHandler t2 = Some th2 ->
  sender t2 = recipient t1 -> recipient t2 = sender t1 ->
  accs s !! sender t1 = Some a -> accs s !! recipient t1 = Some b ->
  state t2 <> CLOSED -> state t2 <> EXPIRED ->
  effective out_of_range th2 (amount t2) = effective out_of_range th1 (amount t1) ->
  balance b + effective out_of_range th1 (amount t1) < 2 ^ 32 ->
  makePayment out_of_range tp1 s = Ret None s1 ->
  exists s2, makePayment out_of_range tp2 s1 = Ret None s2 /\ accs s2 = accs s.
Proof.
  intros Hwf Htp Ht1 Hh1 Ht2 Hh2 Hs2 Hr2 Ha Hb Hc2 He2 Heq Hfit H1.
  rewrite (makePayment_bound out_of_range tp1 s t1 th1 Ht1 Hh1) in H1.
  apply pay_success in H1
    as (t' & a' & b' & Ht' & Ha' & Hb' & Hid & Hne & _ & _ & Hbal & ->).
  assert (t' = t1) by congruence. subst t'.
  assert (a' = a) by congruence. assert (b' = b) by congruence. subst a' b'.
  pose proof (wf_balance s _ a Hwf Ha) as Hba.
  pose proof (wf_balance s _ b Hwf Hb) as Hbb.
  pose proof (effective_range out_of_range th1 _ (wf_amount s _ t1 Hwf Ht1)) as Heff.
  set (e := effective out_of_range th1 (amount t1)) in *.
  set (s1 := settled out_of_range th1 tp1 t1 a b s).
  assert (Ht2' : txns s1 !! tp2 = Some t2).
  { unfold s1, settled. cbn [txns]. rewrite lookup_insert_ne by congruence. exact Ht2. }
  assert (Hb1 : accs s1 !! sender t2 = Some (with_balance b (balance b + e))).
  { rewrite Hs2. unfold s1. rewrite settled_recipient. fold e.
    rewrite wrap32_small by (unfold is_uint32 in *; lia). reflexivity. }
  assert (Ha1 : accs s1 !! recipient t2 = Some (with_balance a (balance a - e))).
  { rewrite Hr2. unfold s1. rewrite settled_sender by exact Hne. fold e.
    rewrite wrap32_small by (unfold is_uint32 in *; lia). reflexivity. }
  eexists. split.
  - rewrite (makePayment_bound out_of_range tp2 s1 t2 th2 Ht2' Hh2),
            (pay_eval out_of_range th2 tp2 s1 t2 _ _ Ht2' Hb1 Ha1).
    cbn [with_balance id balance]. rewrite Heq. fold e.
    destruct (Z.eqb_spec (id b) (id a)) as [E|_]; [symmetry in E; contradiction|].
    destruct (String.eqb_spec (state t2) CLOSED) as [|_]; [contradiction|].
    destruct (String.eqb_spec (state t2) EXPIRED) as [|_]; [contradiction|].
    destruct (Z.ltb_spec (balance b + e) e) as [|_]; [unfold is_uint32 in *; lia|].
    reflexivity.
  - unfold settled at 1. cbn [accs]. rewrite Heq. fold e.
    rewrite Hs2, Hr2. cbn [with_balance balance]. rewrite !with_balance_twice.
    replace (balance b + e - e) with (balance b) by lia.
    replace (balance a - e + e) with (balance a) by lia.
    rewrite !wrap32_small, !with_balance_id by trivial.
    unfold s1, settled. cbn [accs].
    apply map_eq. intros q.
    destruct (decide (q = sender t1)) as [->|Hq1].
    { rewrite lookup_insert_eq. symmetry. exact Ha. }
    rewrite lookup_insert_ne by congruence.
    destruct (decide (q = recipient t1)) as [->|Hq2].
    { rewrite lookup_insert_eq. symmetry. exact Hb. }
    rewrite !lookup_insert_ne by congruence. reflexivity.
Qed.

(** X10. No double spending.  Accounts are shared by the transactions that
    name them: after a payment from an account, a second transaction of the
    same sender is checked against what the first one left.  It is refused with
    InsufficientBalanceError when what is left is less than its effective
    amount, and otherwise paid out of what is left. *)
Theorem second_payment_sees_first (out_of_range : spec_float -> Z) (tp1 tp2 : loc)
    (s s1 : Store) (t1 t2 : Transaction) (th1 th2 : TransactionHandler) (a c : Account) :
  wf_store s ->
  tp1 <> tp2 ->
  txns s !! tp1 = Some t1 -> transactionHandler t1 = Some th1 ->
  txns s !! tp2 = Some t2 -> transactionHandler t2 = Some th2 ->
  sender t2 = sender t1 ->
  accs s !! sender t1 = Some a -> accs s !! recipient t2 = Some c ->
  id a <> id c ->
  state t2 <> CLOSED -> state t2 <> EXPIRED ->
  makePayment out_of_range tp1 s = Ret None s1 ->
  (balance a - effective out_of_range th1 (amount t1)
   < effective out_of_range th2 (amount t2) ->
   makePayment out_of_range tp2 s1 = Ret (Some InsufficientBalanceError) s1) /\
  (effective out_of_range th2 (amount t2)
   <= balance a - effective out_of_range th1 (amount t1) ->
   exists s2,
     makePayment out_of_range tp2 s1 = Ret None s2 /\
     balance_at (sender t1) s2
     = Some (balance a - effective out_of_range th1 (amount t1)
             - effective out_of_range th2 (amount t2))).
Proof.
  intros Hwf Htp Ht1 Hh1 Ht2 Hh2 Hs2 Ha Hc Hid2 Hc2 He2 H1.
  rewrite (makePayment_bound out_of_range tp1 s t1 th1 Ht1 Hh1) in H1.
  apply pay_success in H1
    as (t' & a' & b & Ht' & Ha' & Hb & Hid & Hne & _ & _ & Hbal & ->).
  assert (t' = t1) by congruence. subst t'. assert (a' = a) by congruence. subst a'.
  pose proof (wf_balance s _ a Hwf Ha) as Hba.
  pose proof (effective_range out_of_range th1 _ (wf_amount s _ t1 Hwf Ht1)) as Heff1.
  pose proof (effective_range out_of_range th2 _ (wf_amount s _ t2 Hwf Ht2)) as Heff2.
  set (e1 := effective out_of_range th1 (amount t1)) in *.
  set (e2 := effective out_of_range th2 (amount t2)) in *.
  set (s1 := settled out_of_range th1 tp1 t1 a b s).
  assert (Hne2 : sender t2 <> recipient t2).
  { rewrite Hs2. intros E. rewrite <- E, Ha in Hc. congruence. }
  assert (Ht2' : txns s1 !! tp2 = Some t2).
  { unfold s1, settled. cbn [txns]. rewrite lookup_insert_ne by congruence. exact Ht2. }
  assert (Ha1 : accs s1 !! sender t2 = Some (with_balance a (balance a - e1))).
  { rewrite Hs2. unfold s1. rewrite settled_sender by exact Hne. fold e1.
    rewrite wrap32_small by (unfold is_uint32 in *; lia). reflexivity. }
  assert (Hc1 : exists c1, accs s1 !! recipient t2 = Some c1 /\ id c1 = id c).
  { unfold s1, settled. cbn [accs].
    destruct (decide (recipient t2 = recipient t1)) as [E|E].
    - rewrite E, lookup_insert_eq. eexists. split; [reflexivity|].
      cbn [with_balance id]. rewrite E, Hb in Hc. congruence.
    - rewrite !lookup_insert_ne by congruence. eauto. }
  destruct Hc1 as (c1 & Hc1 & Hidc).
  rewrite (makePayment_bound out_of_range tp2 s1 t2 th2 Ht2' Hh2),
          (pay_eval out_of_range th2 tp2 s1 t2 _ _ Ht2' Ha1 Hc1).
  cbn [with_balance id balance]. rewrite Hidc. fold e2.
  destruct (Z.eqb_spec (id a) (id c)) as [|_]; [contradiction|].
  destruct (String.eqb_spec (state t2) CLOSED) as [|_]; [contradiction|].
  destruct (String.eqb_spec (state t2) EXPIRED) as [|_]; [contradiction|].
  split; intros Hcmp.
  - destruct (Z.ltb_spec (balance a - e1) e2) as [_|]; [reflexivity|lia].
  - destruct (Z.ltb_spec (balance a - e1) e2) as [|_]; [lia|].
    eexists. split; [reflexivity|].
    unfold balance_at. rewrite <- Hs2, settled_sender by exact Hne2.
    cbn. fold e2. rewrite wrap32_small by (unfold is_uint32 in *; lia). reflexivity.
Qed.

Lemma Part000_pay_is_debit (out_of_range : spec_float -> Z) (th : TransactionHandler)
    (tp : loc) (s : Store) :
  Part000.pay th tp s = pay out_of_range DebitTransactionHandler tp s.
Proof. reflexivity. Qed.

(** X11. The fee is the only difference between the two versions of the file.
    Paying a transaction with a handler of main.go gives the error, the
    balances and the states that the earlier version (part_000) gives for the
    same transaction with its value set to the effective amount of the
    handler. *)
Theorem fee_version_refines_flat (out_of_range : spec_float -> Z) (th : TransactionHandler)
    (tp : loc) (s : Store) (t : Transaction) :
  txns s !! tp = Some t ->
  same_outcome
    (pay out_of_range th tp s)
    (Part000.pay th tp
       (mkStore (accs s)
                (<[tp := with_amount t (effective out_of_range th (amount t))]> (txns s)))).
Proof.
  intros Ht.
  set (e := effective out_of_range th (amount t)).
  set (s0 := mkStore (accs s) (<[tp := with_amount t e]> (txns s))).
  assert (Ht0 : txns s0 !! tp = Some (with_amount t e)) by apply lookup_insert_eq.
  rewrite (Part000_pay_is_debit out_of_range).
  destruct (accs s !! sender t) as [a|] eqn:Ha.
  2:{ rewrite !pay_fault; [exact I | rewrite Ht0; auto | rewrite Ht; auto]. }
  destruct (accs s !! recipient t) as [b|] eqn:Hb.
  2:{ rewrite !pay_fault; [exact I | rewrite Ht0; auto | rewrite Ht; auto]. }
  rewrite (pay_eval out_of_range th tp s t a b Ht Ha Hb).
  rewrite (pay_eval out_of_range DebitTransactionHandler tp s0 (with_amount t e) a b Ht0 Ha Hb).
  cbn [with_amount state amount effective]. fold e.
  assert (Hst : forall q, state_at q s = state_at q s0).
  { intros q. unfold state_at, s0. cbn [txns].
    destruct (decide (q = tp)) as [->|Hq].
    - rewrite lookup_insert_eq, Ht. reflexivity.
    - rewrite lookup_insert_ne by congruence. reflexivity. }
  repeat match goal with |- context [if ?c then _ else _] => destruct c end;
    cbn [same_outcome]; try (repeat split; trivial; fail).
  repeat split.
  intros q. unfold state_at, settled, s0. cbn [txns].
  destruct (decide (q = tp)) as [->|Hq].
  - rewrite !lookup_insert_eq. reflexivity.
  - rewrite !lookup_insert_ne by congruence. reflexivity.
Qed.

Ltac wf_sample :=
  split; cbn [accs txns];
  repeat apply map_Forall_insert_2; try apply map_Forall_empty;
  cbn; unfold is_uint8, is_uint32; lia.

Lemma zero_state_is_paid :
  exists s', makePayment low32 3%nat stateless_store = Ret None s'.
Proof.
  apply (proj2 (makePayment_succeeds_iff low32 3%nat stateless_store)).
  exists (mkTransaction 1 55 1%nat 2%nat EmptyString DEBIT (Some DebitTransactionHandler)),
         DebitTransactionHandler, gustavo, pedro.
  repeat split; try reflexivity; discriminate.
Defined.

Lemma fee_bounds_55 :
  effective low32 CashTransactionHandler 55 = 49 /\
  effective low32 CreditTransactionHandler 55 = 60.
Proof.
  destruct (fee_bounds low32 55) as (Hcash & _ & _ & Hcredit).
  - unfold is_uint32. lia.
  - split; [exact Hcash|]. destruct (Hcredit ltac:(lia)) as (Hc & _). exact Hc.
Defined.

Lemma main_steps_unknown_method_panics :
  main_steps low32 3%nat (demo_store "X" 55 gustavo pedro)
  = ([HandlerNotFoundError], Fault (demo_store "X" 55 gustavo pedro)).
Proof.
  destruct (main_steps_cases low32 3%nat (demo_store "X" 55 gustavo pedro)
              (transaction "X" 55) eq_refl) as (_ & _ & H).
  apply H; reflexivity.
Defined.

Lemma run_state_monotone_demo :
  exists t',
    txns (final_store (run low32 [SelectHandler 3%nat; MakePayment 3%nat]
                         (demo_store CASH 55 gustavo pedro))) !! 3%nat = Some t' /\
    state_step OPEN (state t').
Proof.
  destruct (run_state_monotone low32 [SelectHandler 3%nat; MakePayment 3%nat]
              (demo_store CASH 55 gustavo pedro) 3%nat (transaction CASH 55) eq_refl)
    as (t' & Ht' & Hstep & _).
  exists t'. split; [exact Ht' | exact Hstep].
Defined.

Lemma reverse_payment_restores_ledger :
  exists s2,
    makePayment low32 4%nat (final_store (makePayment low32 3%nat ledger_store))
    = Ret None s2 /\
    accs s2 = accs ledger_store.
Proof.
  apply (reverse_payment_restores low32 3%nat 4%nat ledger_store _
           (debit_order 1 1%nat 2%nat 100) (debit_order 2 2%nat 1%nat 100)
           DebitTransactionHandler DebitTransactionHandler gustavo pedro);
    try reflexivity; try discriminate.
  wf_sample.
Defined.

Lemma second_payment_sees_first_ledger :
  makePayment low32 5%nat (final_store (makePayment low32 3%nat ledger_store))
  = Ret (Some InsufficientBalanceError) (final_store (makePayment low32 3%nat ledger_store)).
Proof.
  refine (proj1 (second_payment_sees_first low32 3%nat 5%nat ledger_store
                   (final_store (makePayment low32 3%nat ledger_store))
                   (debit_order 1 1%nat 2%nat 100) (debit_order 3 1%nat 2%nat 100)
                   DebitTransactionHandler DebitTransactionHandler gustavo pedro
                   _ _ eq_refl eq_refl eq_refl eq_refl eq_refl eq_refl eq_refl
                   _ _ _ eq_refl) _).
  - wf_sample.
  - discriminate.
  - discriminate.
  - discriminate.
  - discriminate.
  - cbn. lia.
Defined.

Lemma fee_version_refines_flat_demo :
  same_outcome
    (pay low32 CreditTransactionHandler 3%nat (demo_store CREDIT 55 gustavo pedro))
    (Part000.pay CreditTransactionHandler 3%nat (demo_store CREDIT 60 gustavo pedro)).
Proof.
  exact (fee_version_refines_flat low32 CreditTransactionHandler 3%nat
           (demo_store CREDIT 55 gustavo pedro) (transaction CREDIT 55) eq_refl).
Defined.

Lemma selectTransactionHandler_match (tp : loc) (s : Store) :
  handlers_match s -> handlers_match (final_store (selectTransactionHandler tp s)).
Proof.
  intros Hm.
  destruct (selectTransactionHandler_final tp s) as [-> | (t & h & Ht & Hh & ->)];
    [exact Hm|].
  cbn [final_store]. unfold rebound. intros q t' h'. cbn [txns].
  destruct (decide (q = tp)) as [->|Hq].
  - rewrite lookup_insert_eq. intros [= <-]. cbn [with_handler transactionHandler paymentMethod].
    intros [= <-]. exact Hh.
  - rewrite lookup_insert_ne by congruence. apply Hm.
Qed.

Lemma makePayment_match (out_of_range : spec_float -> Z) (tp : loc) (s : Store) :
  handlers_match s -> handlers_match (final_store (makePayment out_of_range tp s)).
Proof.
  intros Hm.
  destruct (makePayment_final out_of_range tp s)
    as [[-> _] | (t & th & a & b & Ht & Hh & _ & _ & _ & _ & _ & _ & _ & ->)];
    [exact Hm|].
  cbn [final_store]. unfold settled. intros q t' h'. cbn [txns].
  destruct (decide (q = tp)) as [->|Hq].
  - rewrite lookup_insert_eq. intros [= <-]. cbn [with_state transactionHandler paymentMethod].
    apply (Hm tp t h' Ht).
  - rewrite lookup_insert_ne by congruence. apply Hm.
Qed.

(** X12. The strategy never drifts from the method.  If every handler bound in
    the store is the one of its transaction's payment method (as when none is
    bound yet), the same holds after any sequence of selections and payments:
    each payment of the sequence runs the strategy of the method. *)
Theorem run_handlers_match (out_of_range : spec_float -> Z) (ops : list op) (s : Store) :
  handlers_match s -> handlers_match (final_store (run out_of_range ops s)).
Proof.
  revert s. induction ops as [|o ops IH]; intros s Hm; [exact Hm|].
  cbn [run]. unfold bind.
  assert (Hstep : handlers_match (final_store (step out_of_range o s))).
  { destruct o; cbn [step]; auto using selectTransactionHandler_match, makePayment_match. }
  destruct (step out_of_range o s) as [e s'|s']; cbn [final_store] in *; auto.
Qed.

(** X13. The platform matters to large credits only.  With the debit or the
    cash handler, and with the credit handler for amounts up to 3904515723, the
    effective amount and the whole result of [pay] are the same whatever the
    implementation makes of a float that does not fit a uint32. *)
Theorem payment_is_portable (oor1 oor2 : spec_float -> Z) (th : TransactionHandler)
    (tp : loc) (s : Store) (t : Transaction) :
  txns s !! tp = Some t ->
  is_uint32 (amount t) ->
  th <> CreditTransactionHandler \/ amount t <= 3904515723 ->
  effective oor1 th (amount t) = effective oor2 th (amount t) /\
  pay oor1 th tp s = pay oor2 th tp s.
Proof.
  intros Ht Hamt Hcase.
  assert (He : effective oor1 th (amount t) = effective oor2 th (amount t)).
  { destruct th.
    - destruct Hcase as [H|H]; [contradiction|].
      assert (amount t * 11 / 10 < 2 ^ 32).
      { unfold is_uint32 in Hamt. apply Z.div_lt_upper_bound; lia. }
      rewrite !effective_credit by trivial. reflexivity.
    - rewrite !effective_cash by trivial. reflexivity.
    - reflexivity. }
  split; [exact He|].
  destruct (accs s !! sender t) as [a|] eqn:Ha.
  2:{ rewrite !pay_fault by (rewrite Ht; auto). reflexivity. }
  destruct (accs s !! recipient t) as [b|] eqn:Hb.
  2:{ rewrite !pay_fault by (rewrite Ht; auto). reflexivity. }
  rewrite (pay_eval oor1 th tp s t a b Ht Ha Hb), (pay_eval oor2 th tp s t a b Ht Ha Hb).
  unfold settled. rewrite He. reflexivity.
Qed.

Lemma run_handlers_match_demo :
  handlers_match
    (final_store (run low32 [SelectHandler 3%nat; MakePayment 3%nat]
                    (demo_store CASH 55 gustavo pedro))).
Proof.
  apply (run_handlers_match low32 _ (demo_store CASH 55 gustavo pedro)).
  intros q t h Hq Hh. unfold demo_store in Hq. cbn [txns] in Hq.
  destruct (decide (q = 3%nat)) as [->|Hne].
  - rewrite lookup_insert_eq in Hq. injection Hq as <-. discriminate.
  - rewrite lookup_insert_ne in Hq by congruence. rewrite lookup_empty in Hq. discriminate.
Defined.

Lemma payment_is_portable_demo :
  effective low32 CreditTransactionHandler 55 = effective (fun _ => 0) CreditTransactionHandler 55 /\
  pay low32 CreditTransactionHandler 3%nat (demo_store CREDIT 55 gustavo pedro)
  = pay (fun _ => 0) CreditTransactionHandler 3%nat (demo_store CREDIT 55 gustavo pedro).
Proof.
  apply (payment_is_portable low32 (fun _ => 0) CreditTransactionHandler 3%nat
           (demo_store CREDIT 55 gustavo pedro) (transaction CREDIT 55) eq_refl).
  - unfold is_uint32. cbn. lia.
  - right. cbn. lia.
Defined.

(** [main] logs nothing and leaves 101 and 54, the transaction closed. *)
Example main_logs_nothing :
  main low32
  = ([], Ret tt (mkStore (<[1%nat := with_balance gustavo 101]>
                            (<[2%nat := with_balance pedro 54]> ∅))
                         (<[3%nat := with_state (with_handler (transaction CASH 55)
                                                   CashTransactionHandler) CLOSED]> ∅))).
Proof. vm_compute. reflexivity. Qed.
